(** * Email litigation analyzer: a shallow embedding of
      [email_litigation_analyzer.py] and the properties of its result.

    Python [str] values are sequences of Unicode code points, so text is a
    list of code points.  The character tables consulted by [re] and by
    [str.strip]/[str.upper] are written out for the ASCII range; the rows of
    the other code points are read from a [unicode_db] that every definition
    takes as an argument, so every theorem holds for whatever those rows are. *)

From Stdlib Require Import String Ascii NArith ZArith Bool Arith Lia List Sorted.
Import ListNotations.
Open Scope string_scope.
Open Scope list_scope.
Open Scope nat_scope.

(** ** Text *)

Definition char := N.
Definition pystr := list char.

(** A string literal of the source, as code points. *)
Definition str (s : string) : pystr := map N_of_ascii (list_ascii_of_string s).

(** U+2026 HORIZONTAL ELLIPSIS, the one-character marker of line 131. *)
Definition ellipsis : char := 8230%N.

Definition in_range (lo hi c : char) : bool := ((lo <=? c) && (c <=? hi))%N.

Definition is_ascii (c : char) : bool := (c <? 128)%N.

(** ** Character tables *)

(** Rows of the Unicode character database outside the ASCII range. *)
Record unicode_db := {
  db_isspace : char -> bool;        (* Py_UNICODE_ISSPACE *)
  db_isalnum : char -> bool;        (* Py_UNICODE_ISALNUM *)
  db_isdecimal : char -> bool;      (* Py_UNICODE_ISDECIMAL *)
  db_tolower : char -> char;        (* simple lower-case mapping *)
  db_toupper : char -> char;        (* simple upper-case mapping *)
  db_upper : char -> pystr;         (* full upper-case mapping of str.upper *)
  db_fixes : char -> char -> bool   (* sre's _ignorecase_fixes *)
}.

Definition ascii_isspace (c : char) : bool :=
  in_range 9%N 13%N c || in_range 28%N 32%N c.

Definition ascii_isdecimal (c : char) : bool := in_range 48%N 57%N c.

Definition ascii_isupper (c : char) : bool := in_range 65%N 90%N c.

Definition ascii_islower (c : char) : bool := in_range 97%N 122%N c.

Definition ascii_isalnum (c : char) : bool :=
  ascii_isdecimal c || ascii_isupper c || ascii_islower c.

Definition ascii_tolower (c : char) : char :=
  if ascii_isupper c then (c + 32)%N else c.

Definition ascii_toupper (c : char) : char :=
  if ascii_islower c then (c - 32)%N else c.

Section Tables.

Variable db : unicode_db.

Definition isspace (c : char) : bool :=
  if is_ascii c then ascii_isspace c else db_isspace db c.

Definition isalnum (c : char) : bool :=
  if is_ascii c then ascii_isalnum c else db_isalnum db c.

Definition isdecimal (c : char) : bool :=
  if is_ascii c then ascii_isdecimal c else db_isdecimal db c.

Definition tolower (c : char) : char :=
  if is_ascii c then ascii_tolower c else db_tolower db c.

Definition toupper (c : char) : char :=
  if is_ascii c then ascii_toupper c else db_toupper db c.

(** [str.upper] on one code point: one code point in the ASCII range, possibly
    several outside it. *)
Definition upper_char (c : char) : pystr :=
  if is_ascii c then [ascii_toupper c] else db_upper db c.

Definition upper (s : pystr) : pystr := flat_map upper_char s.

(** No two ASCII letters share a row of the fixes table. *)
Definition ignorecase_fixes (lo c : char) : bool :=
  if is_ascii lo && is_ascii c then false else db_fixes db lo c.

(** sre: a character is cased when a simple case mapping moves it. *)
Definition iscased (c : char) : bool :=
  negb (c =? tolower c)%N || negb (c =? toupper c)%N.

(** sre: [\w] is alphanumeric or underscore. *)
Definition is_word (c : char) : bool := isalnum c || (c =? 95)%N.

(** ** [str.strip] *)

Fixpoint lstrip (s : pystr) : pystr :=
  match s with
  | c :: s' => if isspace c then lstrip s' else s
  | [] => []
  end.

Definition rstrip (s : pystr) : pystr := rev (lstrip (rev s)).

Definition strip (s : pystr) : pystr := rstrip (lstrip s).

End Tables.

(** ** Slices [s[a:b]] with non-negative bounds *)

Definition slice (s : pystr) (a b : Z) : pystr :=
  firstn (Z.to_nat (b - a)) (skipn (Z.to_nat a) s).

Definition len (s : pystr) : Z := Z.of_nat (length s).

(** ** [str.join] *)

Fixpoint join (sep : pystr) (l : list pystr) : pystr :=
  match l with
  | [] => []
  | [x] => x
  | x :: rest => x ++ sep ++ join sep rest
  end.

(** ** Regular expressions: the fragment of [re] the catalog is written in *)

(** Items that consume exactly one character. *)
Inductive atom :=
| LITERAL (c : char)        (* a character of the pattern, under IGNORECASE *)
| CATEGORY_SPACE            (* \s *)
| CATEGORY_DIGIT.           (* \d *)

Inductive regex :=
| EMPTY                                             (* the empty sequence *)
| ATOM (a : atom)
| AT_BOUNDARY                                       (* \b *)
| SEQ (r1 r2 : regex)                               (* r1 r2 *)
| BRANCH (r1 r2 : regex)                            (* r1|r2, r1 tried first *)
| MAX_REPEAT (lo : nat) (hi : option nat) (a : atom). (* greedy a+, a*, a{n} *)

Section Engine.

Variable db : unicode_db.

(** A pattern character under [re.IGNORECASE]: an uncased character is
    compared as it is; a cased one through the lower-case mapping of the text
    character, also accepting the characters the fixes table lists. *)
Definition literal_ignore (p d : char) : bool :=
  if iscased db p then
    let lo := tolower db p in
    let ld := tolower db d in
    (ld =? lo)%N || ignorecase_fixes db lo ld
  else (d =? p)%N.

Definition atom_match (a : atom) (d : char) : bool :=
  match a with
  | LITERAL p => literal_ignore p d
  | CATEGORY_SPACE => isspace db d
  | CATEGORY_DIGIT => isdecimal db d
  end.

(** [\b] at position [i]: the characters on the two sides differ in being
    word characters; outside the text counts as not a word character. *)
Definition word_at (text : pystr) (i : nat) : bool :=
  match nth_error text i with
  | Some c => is_word db c
  | None => false
  end.

Definition word_before (text : pystr) (i : nat) : bool :=
  match i with
  | 0 => false
  | S j => word_at text j
  end.

Definition at_boundary (text : pystr) (i : nat) : bool :=
  negb (Bool.eqb (word_at text i) (word_before text i)).

(** Length of the longest run of characters accepted by [a] at the head of
    [s]. *)
Fixpoint run (a : atom) (s : pystr) : nat :=
  match s with
  | c :: s' => if atom_match a c then S (run a s') else 0
  | [] => 0
  end.

Definition count (a : atom) (text : pystr) (i : nat) (hi : option nat) : nat :=
  let n := run a (skipn i text) in
  match hi with
  | Some h => Nat.min h n
  | None => n
  end.

(** Greedy single-character repeat: the tail is tried after [n] repetitions,
    then after one fewer, down to [lo]. *)
Fixpoint repeat_one (k : nat -> option nat) (i lo n : nat) : option nat :=
  if n <? lo then None
  else match k (i + n) with
       | Some e => Some e
       | None => match n with
                 | 0 => None
                 | S n' => repeat_one k i lo n'
                 end
       end.

(** Backtracking matcher in continuation-passing style: [sre_match r text i k]
    matches [r] at position [i] and hands every candidate end, in priority
    order, to [k] until [k] accepts one. *)
Fixpoint sre_match (r : regex) (text : pystr) (i : nat)
         (k : nat -> option nat) : option nat :=
  match r with
  | EMPTY => k i
  | ATOM a =>
      match nth_error text i with
      | Some d => if atom_match a d then k (S i) else None
      | None => None
      end
  | AT_BOUNDARY => if at_boundary text i then k i else None
  | SEQ r1 r2 => sre_match r1 text i (fun j => sre_match r2 text j k)
  | BRANCH r1 r2 =>
      match sre_match r1 text i k with
      | Some e => Some e
      | None => sre_match r2 text i k
      end
  | MAX_REPEAT lo hi a => repeat_one k i lo (count a text i hi)
  end.

(** The end of the match that starts at [s], if any. *)
Definition match_at (r : regex) (text : pystr) (s : nat) : option nat :=
  sre_match r text s (fun j => Some j).

(** The same, refusing the empty match: what a search does at its first
    position right after an empty match ([must_advance]). *)
Definition match_advancing (r : regex) (text : pystr) (s : nat) : option nat :=
  sre_match r text s (fun j => if j =? s then None else Some j).

(** [finditer]: the candidate start positions are visited in order; [n] counts
    the positions still to visit and [lim] is the end of the last match, below
    which no match may start. *)
Fixpoint scan (r : regex) (text : pystr) (n s lim : nat) : list (nat * nat) :=
  match n with
  | 0 => []
  | S n' =>
      if s <? lim then scan r text n' (S s) lim
      else match match_at r text s with
           | None => scan r text n' (S s) lim
           | Some e =>
               if e =? s then
                 (s, s) :: match match_advancing r text s with
                           | Some e' => (s, e') :: scan r text n' (S s) e'
                           | None => scan r text n' (S s) lim
                           end
               else (s, e) :: scan r text n' (S s) e
           end
  end.

Definition finditer (r : regex) (text : pystr) : list (nat * nat) :=
  scan r text (S (length text)) 0 0.

End Engine.

(** ** [re.compile]: the syntax of the patterns *)

Fixpoint seq_of (l : list regex) : regex :=
  match l with
  | [] => EMPTY
  | [r] => r
  | r :: l' => SEQ r (seq_of l')
  end.

Definition special (c : ascii) : bool :=
  existsb (Ascii.eqb c)
    ["."; "^"; "$"; "*"; "+"; "?"; "{"; "}"; "["; "]"; "\"; "|"; "("; ")"]%char.

Definition digit_of (c : ascii) : option nat :=
  let n := nat_of_ascii c in
  if (48 <=? n) && (n <=? 57) then Some (n - 48) else None.

(** The count of [{n}]: decimal digits up to the closing brace. *)
Fixpoint braces (s : list ascii) (acc : option nat) : option (nat * list ascii) :=
  match s with
  | [] => None
  | c :: s' =>
      if Ascii.eqb c "}" then
        match acc with
        | Some n => Some (n, s')
        | None => None
        end
      else
        match digit_of c with
        | Some d =>
            braces s' (Some (10 * match acc with Some n => n | None => 0 end + d))
        | None => None
        end
  end.

(** No quantifier follows. *)
Definition unquantified (s : list ascii) : bool :=
  match s with
  | c :: _ => negb (existsb (Ascii.eqb c) ["+"; "*"; "?"; "{"]%char)
  | [] => true
  end.

(** An atom with the greedy quantifier that follows it, if any. *)
Definition quantified (a : atom) (s : list ascii) : option (regex * list ascii) :=
  match s with
  | "+"%char :: s' =>
      if unquantified s' then Some (MAX_REPEAT 1 None a, s') else None
  | "*"%char :: s' =>
      if unquantified s' then Some (MAX_REPEAT 0 None a, s') else None
  | "?"%char :: _ => None
  | "{"%char :: s' =>
      match braces s' None with
      | Some (n, s'') =>
          if unquantified s'' then Some (MAX_REPEAT n (Some n) a, s'') else None
      | None => None
      end
  | _ => Some (ATOM a, s)
  end.

(** The parser: [items] are the items of the alternative being read, last
    first; it stops at the end of the pattern or in front of a closing
    parenthesis.  Syntax outside the fragment is refused. *)
Fixpoint parse (n : nat) (s : list ascii) (items : list regex)
  : option (regex * list ascii) :=
  match n with
  | 0 => None
  | S n =>
      let item (r : option (regex * list ascii)) :=
        match r with
        | Some (r, s') => parse n s' (r :: items)
        | None => None
        end in
      match s with
      | [] => Some (seq_of (rev items), [])
      | ")"%char :: _ => Some (seq_of (rev items), s)
      | "|"%char :: s' =>
          match parse n s' [] with
          | Some (r, rest) => Some (BRANCH (seq_of (rev items)) r, rest)
          | None => None
          end
      | "("%char :: "?"%char :: ":"%char :: s' =>
          match parse n s' [] with
          | Some (g, ")"%char :: rest) =>
              if unquantified rest then parse n rest (g :: items) else None
          | _ => None
          end
      | "\"%char :: "b"%char :: s' =>
          if unquantified s' then parse n s' (AT_BOUNDARY :: items) else None
      | "\"%char :: "s"%char :: s' => item (quantified CATEGORY_SPACE s')
      | "\"%char :: "d"%char :: s' => item (quantified CATEGORY_DIGIT s')
      | c :: s' =>
          if special c then None
          else item (quantified (LITERAL (N_of_ascii c)) s')
      end
  end.

(** [re.compile(p, re.IGNORECASE)]; [None] when the pattern is refused. *)
Definition re_compile (p : string) : option regex :=
  let s := list_ascii_of_string p in
  match parse (S (length s)) s [] with
  | Some (r, []) => Some r
  | _ => None
  end.

(** ** Shapes of patterns *)

(** The characters of a literal string, one after the other. *)
Definition lit (s : string) : regex :=
  seq_of (map (fun c => ATOM (LITERAL c)) (str s)).

(** [\b(?:r)\b] *)
Definition bounded (r : regex) : regex := SEQ AT_BOUNDARY (SEQ r AT_BOUNDARY).

(** Every match of the pattern starts with a [\b]. *)
Fixpoint starts_at_boundary (r : regex) : bool :=
  match r with
  | AT_BOUNDARY => true
  | SEQ r1 _ => starts_at_boundary r1
  | BRANCH r1 r2 => starts_at_boundary r1 && starts_at_boundary r2
  | _ => false
  end.

(** Every match of the pattern ends with a [\b]. *)
Fixpoint ends_at_boundary (r : regex) : bool :=
  match r with
  | AT_BOUNDARY => true
  | SEQ _ r2 => ends_at_boundary r2
  | BRANCH r1 r2 => ends_at_boundary r1 && ends_at_boundary r2
  | _ => false
  end.

(** ** The analyzer *)

(** [RiskPattern]: a risk category and its compiled patterns. *)
Record RiskPattern := {
  category : pystr;
  patterns : list regex
}.

(** Values a field of the email record holds: text or [None]. *)
Inductive pyval :=
| PyNone
| PyStr (s : pystr).

(** The email record, a [dict] with string keys. *)
Definition dict := list (string * pyval).

(** [d.get(key, default)] *)
Fixpoint dict_get (d : dict) (key : string) (default : pyval) : pyval :=
  match d with
  | [] => default
  | (k, v) :: d' => if String.eqb k key then v else dict_get d' key default
  end.

Definition truthy (v : pyval) : bool :=
  match v with
  | PyNone => false
  | PyStr [] => false
  | PyStr (_ :: _) => true
  end.

(** [a or b] *)
Definition py_or (a b : pyval) : pyval := if truthy a then a else b.

(** A value inside an f-string. *)
Definition py_format (v : pyval) : pystr :=
  match v with
  | PyNone => str "None"
  | PyStr s => s
  end.

(** The result dictionary of [analyze_email], one field per key. *)
Record result := {
  risk_score : Z;
  risk_categories : pystr;
  num_flags : Z;
  flagged_snippets : pystr
}.

(** [sorted] on strings: code points compared lexicographically. *)
Fixpoint str_leb (a b : pystr) : bool :=
  match a, b with
  | [], _ => true
  | _ :: _, [] => false
  | x :: a', y :: b' => (x <? y)%N || ((x =? y)%N && str_leb a' b')
  end.

Fixpoint insert_sorted (x : pystr) (l : list pystr) : list pystr :=
  match l with
  | [] => [x]
  | y :: l' => if str_leb x y then x :: l else y :: insert_sorted x l'
  end.

Definition sorted (l : list pystr) : list pystr := fold_right insert_sorted [] l.

Definition str_eq_dec : forall a b : pystr, {a = b} + {a <> b} :=
  list_eq_dec N.eq_dec.

(** [set(l)]: the distinct elements of [l]. *)
Definition set_of (l : list pystr) : list pystr := nodup str_eq_dec l.

(** The dictionary literal of [_compile_patterns]: the categories in the
    order of the source, each with its regular expressions. *)
Definition categories : list (string * list string) :=
  [ ("admission_of_fault",
     [ "\bwe\s+(?:are|re|were)\s+responsible\b";
       "\bI\s+admit\b" ]);
    ("over_promise",
     [ "\bguarantee\b";
       "\bwill\s+(?:ensure|cover|compensate)\b" ]);
    ("hostile_language",
     [ "\b(?:idiot|stupid|incompetent|useless)\b";
       "\b(?:pay up|or else|you\s+must)\b" ]);
    ("settlement_discussion",
     [ "\b(?:settle|settlement|without prejudice)\b";
       "\b(?:offer|demand)\s+to\s+settle\b" ]);
    ("defamation",
     [ "\b(?:fraud|scam|criminal)\b" ]);
    ("threat_of_action",
     [ "\b(?:I will sue|we'll take you to court|legal action)\b" ]);
    ("sensitive_data",
     [ "SSN\s*\d{3}-\d{2}-\d{4}";
       "\b(?:password|credential|confidential)\b" ]);
    ("employment_discrimination",
     [ "\b(?:fired because|due to your age|because of your race)\b" ]);
    ("antitrust",
     [ "\b(?:fix prices|divide markets|collusion)\b" ]) ].

(** The list comprehension of line 85. *)
Fixpoint compile_all (regexes : list string) : option (list regex) :=
  match regexes with
  | [] => Some []
  | r :: rest =>
      match re_compile r, compile_all rest with
      | Some c, Some cs => Some (c :: cs)
      | _, _ => None
      end
  end.

(** The loop of lines 84 to 86; a pattern that does not compile fails the
    whole catalog. *)
Fixpoint compile_categories (items : list (string * list string))
  : option (list RiskPattern) :=
  match items with
  | [] => Some []
  | (name, regexes) :: rest =>
      match compile_all regexes, compile_categories rest with
      | Some compiled, Some ps =>
          Some ({| category := str name; patterns := compiled |} :: ps)
      | _, _ => None
      end
  end.

Definition _compile_patterns : option (list RiskPattern) :=
  compile_categories categories.

(** Precompiled once, when the module is loaded. *)
Definition _PATTERNS : list RiskPattern :=
  Eval vm_compute in
    match _compile_patterns with
    | Some ps => ps
    | None => []
    end.

(** Patterns and categories of the catalog that are named below. *)

Definition compiled (p : string) : regex :=
  match re_compile p with
  | Some r => r
  | None => EMPTY
  end.

Definition we_are_responsible : regex :=
  compiled "\bwe\s+(?:are|re|were)\s+responsible\b".

Definition guarantee : regex := compiled "\bguarantee\b".

Definition insults : regex :=
  compiled "\b(?:idiot|stupid|incompetent|useless)\b".

Definition demands : regex := compiled "\b(?:pay up|or else|you\s+must)\b".

Definition ssn_number : regex := compiled "SSN\s*\d{3}-\d{2}-\d{4}".

Definition admission_of_fault : RiskPattern :=
  {| category := str "admission_of_fault";
     patterns := [we_are_responsible; compiled "\bI\s+admit\b"] |}.

Definition over_promise : RiskPattern :=
  {| category := str "over_promise";
     patterns := [guarantee; compiled "\bwill\s+(?:ensure|cover|compensate)\b"] |}.

Definition hostile_language : RiskPattern :=
  {| category := str "hostile_language"; patterns := [insults; demands] |}.

Definition sensitive_data : RiskPattern :=
  {| category := str "sensitive_data";
     patterns :=
       [ssn_number; compiled "\b(?:password|credential|confidential)\b"] |}.

Section Analyzer.

Variable db : unicode_db.

(** The context of a match: 40 characters on each side, clamped to the text
    (lines 40 to 42). *)
Definition context (text : pystr) (start end_ : nat) : pystr :=
  let snippet_start := Z.max 0 (Z.of_nat start - 40) in
  let snippet_end := Z.min (len text) (Z.of_nat end_ + 40) in
  slice text snippet_start snippet_end.

(** [RiskPattern.match]: the matches (snippet, start, end) of all the patterns
    of the category, appended pattern after pattern, match after match. *)
Definition RiskPattern_match (rp : RiskPattern) (text : pystr)
  : list (pystr * nat * nat) :=
  fold_left
    (fun matches regex =>
       fold_left
         (fun matches (m : nat * nat) =>
            let (start, end_) := m in
            matches ++ [(strip db (context text start end_), start, end_)])
         (finditer db regex text) matches)
    (patterns rp) [].

(** Lines 130 and 131. *)
Definition shorten (snippet : pystr) : pystr :=
  if (len snippet >? 200)%Z then firstn 200 snippet ++ [ellipsis] else snippet.

(** [f"[{category}] {snippet}"] *)
Definition annotate (cat snippet : pystr) : pystr :=
  str "[" ++ cat ++ str "] " ++ snippet.

(** The three accumulators of the loop of [analyze_email]. *)
Record acc := {
  categories_found : list pystr;
  snippets : list pystr;
  flag_count : Z
}.

(** One iteration of the loop over [_PATTERNS] (lines 124 to 132). *)
Definition step (combined_text : pystr) (a : acc) (pattern : RiskPattern) : acc :=
  let matches := RiskPattern_match pattern combined_text in
  match matches with
  | [] => a
  | _ :: _ =>
      {| categories_found := categories_found a ++ [category pattern];
         flag_count := flag_count a + Z.of_nat (length matches);
         snippets :=
           fold_left
             (fun snippets (m : pystr * nat * nat) =>
                let '(snippet, _, _) := m in
                snippets ++ [annotate (category pattern) (shorten snippet)])
             matches (snippets a) |}
  end.

(** [n or 1] on integers. *)
Definition or_one (n : Z) : Z := if (n =? 0)%Z then 1%Z else n.

(** The scanning buffer [f"{subject}\n{body}"] (lines 115 to 117). *)
Definition combined_text (email : dict) : pystr :=
  let subject := py_or (dict_get email "subject" (PyStr [])) (PyStr []) in
  let body := py_or (dict_get email "body" (PyStr [])) (PyStr []) in
  py_format subject ++ [10%N] ++ py_format body.

Definition init : acc :=
  {| categories_found := []; snippets := []; flag_count := 0 |}.

(** The accumulators after the loop over [_PATTERNS]. *)
Definition scan_catalog (text : pystr) : acc :=
  fold_left (step text) _PATTERNS init.

Definition analyze_email (email : dict) : result :=
  let a := scan_catalog (combined_text email) in
  let risk_score :=
    (flag_count a * or_one (Z.of_nat (length (set_of (categories_found a)))))%Z in
  {| risk_score := risk_score;
     risk_categories := join (str ", ") (sorted (set_of (categories_found a)));
     num_flags := flag_count a;
     flagged_snippets := join (str "; ") (snippets a) |}.

End Analyzer.

(** ** The result, as the specification words it *)

Section Specification.

Variable db : unicode_db.

(** The snippet of one match: its context, stripped. *)
Definition snippet_of (text : pystr) (m : nat * nat) : pystr :=
  strip db (context text (fst m) (snd m)).

(** The matches of a category: pattern order, then match order. *)
Definition category_matches (rp : RiskPattern) (text : pystr) : list (nat * nat) :=
  flat_map (fun regex => finditer db regex text) (patterns rp).

(** The category had at least one match. *)
Definition hit (text : pystr) (rp : RiskPattern) : bool :=
  match category_matches rp text with
  | [] => false
  | _ :: _ => true
  end.

(** The entries ["[category] snippet"], one per match: catalog order, then
    pattern order, then match order. *)
Definition entries_of (text : pystr) (rp : RiskPattern) : list pystr :=
  map (fun m => annotate (category rp) (shorten (snippet_of text m)))
      (category_matches rp text).

Definition expected_entries (text : pystr) : list pystr :=
  flat_map (entries_of text) _PATTERNS.

(** The total number of matches. *)
Definition total_matches (text : pystr) : nat :=
  length (flat_map (fun rp => category_matches rp text) _PATTERNS).

(** The distinct categories with at least one match. *)
Definition categories_hit (text : pystr) : list pystr :=
  set_of (map category (filter (hit text) _PATTERNS)).

(** The categories of the result, before they are joined into one string. *)
Definition result_categories (email : dict) : list pystr :=
  sorted (set_of (categories_found (scan_catalog db (combined_text email)))).

End Specification.

(** An excerpt of the Unicode character database: U+FB01 LATIN SMALL LIGATURE
    FI is a lower-case letter, so its lower-case mapping leaves it alone, and
    [str.upper] maps it to the two letters "FI"; the other rows are left
    blank. *)
Definition excerpt_db : unicode_db :=
  {| db_isspace := fun _ => false;
     db_isalnum := fun c => (c =? 64257)%N;
     db_isdecimal := fun _ => false;
     db_tolower := fun c => c;
     db_toupper := fun c => c;
     db_upper := fun c => if (c =? 64257)%N then [70%N; 73%N] else [c];
     db_fixes := fun _ _ => false |}.

(** An email with the two text fields. *)
Definition email_of (subject body : string) : dict :=
  [("subject", PyStr (str subject)); ("body", PyStr (str body))].

(** ** What a pattern matches *)

Section Semantics.

Variable db : unicode_db.

(** [matches text r i j]: the pattern [r] matches the characters of [text]
    from position [i] up to position [j]. *)
Inductive matches (text : pystr) : regex -> nat -> nat -> Prop :=
| M_empty i : matches text EMPTY i i
| M_atom a i d :
    nth_error text i = Some d -> atom_match db a d = true ->
    matches text (ATOM a) i (S i)
| M_boundary i :
    at_boundary db text i = true -> matches text AT_BOUNDARY i i
| M_seq r1 r2 i j k :
    matches text r1 i j -> matches text r2 j k -> matches text (SEQ r1 r2) i k
| M_left r1 r2 i j : matches text r1 i j -> matches text (BRANCH r1 r2) i j
| M_right r1 r2 i j : matches text r2 i j -> matches text (BRANCH r1 r2) i j
| M_repeat lo hi a i n :
    lo <= n ->
    (forall h, hi = Some h -> n <= h) ->
    (forall p, p < n ->
       exists d, nth_error text (i + p) = Some d /\ atom_match db a d = true) ->
    matches text (MAX_REPEAT lo hi a) i (i + n).

(** Some item of the pattern accepts the character [d]. *)
Fixpoint accepts (r : regex) (d : char) : bool :=
  match r with
  | EMPTY | AT_BOUNDARY => false
  | ATOM a | MAX_REPEAT _ _ a => atom_match db a d
  | SEQ r1 r2 | BRANCH r1 r2 => accepts r1 d || accepts r2 d
  end.

(** Position [i] lies strictly inside a word: a word character on both
    sides. *)
Definition inside_word (text : pystr) (i : nat) : bool :=
  word_before db text i && word_at db text i.

End Semantics.

(** The string [w] stands in [text] at position [i]. *)
Definition occurs_at (w text : pystr) (i : nat) : Prop :=
  firstn (length w) (skipn i text) = w.

(** ... between two word boundaries. *)
Definition whole_at (db : unicode_db) (w text : pystr) (i : nat) : Prop :=
  occurs_at w text i /\
  at_boundary db text i = true /\ at_boundary db text (i + length w) = true.

(** ** Records *)

(** The text of a field, a missing or null field read as the empty string. *)
Definition field_text (email : dict) (key : string) : pystr :=
  match dict_get email key PyNone with
  | PyStr s => s
  | PyNone => []
  end.

(** The result without any flag. *)
Definition no_flags : result :=
  {| risk_score := 0; risk_categories := []; num_flags := 0;
     flagged_snippets := [] |}.

(** The record with its subject and its body in upper case. *)
Definition upper_val (db : unicode_db) (v : pyval) : pyval :=
  match v with
  | PyNone => PyNone
  | PyStr s => PyStr (upper db s)
  end.

Definition upper_fields (db : unicode_db) (email : dict) : dict :=
  map (fun kv : string * pyval =>
         let (k, v) := kv in
         if String.eqb k "subject" || String.eqb k "body"
         then (k, upper_val db v) else (k, v))
      email.

(** "we", two hundred spaces, "are responsible": one match longer than the
    snippet limit. *)
Definition stretched : dict :=
  [("subject", PyStr []);
   ("body", PyStr (str "we" ++ repeat 32%N 200 ++ str "are responsible"))].

(** "fix prices" written with the ligature U+FB01. *)
Definition ligature : dict :=
  [("subject", PyStr []); ("body", PyStr (64257%N :: str "x prices"))].

(** A mail with the apostrophe U+2019 and the dash U+2013, which [str.upper]
    leaves alone. *)
Definition curly : dict :=
  [("subject", PyStr (str "Offer"));
   ("body",
    PyStr (str "It" ++ [8217%N] ++ str "s true " ++ [8211%N]
           ++ str " We are responsible"))].

(** ** Spans and windows *)

(** The least number of characters a match of the pattern runs over. *)
Fixpoint min_width (r : regex) : nat :=
  match r with
  | EMPTY | AT_BOUNDARY => 0
  | ATOM _ => 1
  | SEQ r1 r2 => min_width r1 + min_width r2
  | BRANCH r1 r2 => Nat.min (min_width r1) (min_width r2)
  | MAX_REPEAT lo _ _ => lo
  end.

(** Spans listed from left to right, none starting before [lim] or before the
    end of the one in front of it. *)
Fixpoint ordered (lim : nat) (l : list (nat * nat)) : Prop :=
  match l with
  | [] => True
  | (s, e) :: l' => lim <= s /\ s <= e /\ ordered e l'
  end.

(** The character at position [i] is white space. *)
Definition space_at (db : unicode_db) (text : pystr) (i : nat) : bool :=
  match nth_error text i with
  | Some c => isspace db c
  | None => false
  end.

(** The characters [text[a:b]], positions as natural numbers. *)
Definition between (text : pystr) (a b : nat) : pystr :=
  slice text (Z.of_nat a) (Z.of_nat b).

(** The same text up to the case of the letters A-Z. *)
Definition same_letters (a b : pystr) : Prop :=
  map ascii_tolower a = map ascii_tolower b.

(** A record with further keys, the text fields last. *)
Definition with_headers (subject body : string) : dict :=
  [("date", PyStr (str "2025-01-01")); ("to", PyNone);
   ("body", PyStr (str body)); ("subject", PyStr (str subject))].

(** ** Phrases of the catalog *)

(** The string [w], in whatever case its letters are written, stands in
    [text] at position [i] between two word boundaries. *)
Definition stands_at (db : unicode_db) (w text : pystr) (i : nat) : Prop :=
  exists v, same_letters v w /\ whole_at db v text i.

(** The alternatives of the catalog that are plain phrases, each with its
    category. *)
Definition literal_phrases : list (string * string) :=
  [ ("over_promise", "guarantee");
    ("hostile_language", "idiot"); ("hostile_language", "stupid");
    ("hostile_language", "incompetent"); ("hostile_language", "useless");
    ("hostile_language", "pay up"); ("hostile_language", "or else");
    ("settlement_discussion", "settle");
    ("settlement_discussion", "settlement");
    ("settlement_discussion", "without prejudice");
    ("defamation", "fraud"); ("defamation", "scam"); ("defamation", "criminal");
    ("threat_of_action", "I will sue");
    ("threat_of_action", "we'll take you to court");
    ("threat_of_action", "legal action");
    ("sensitive_data", "password"); ("sensitive_data", "credential");
    ("sensitive_data", "confidential");
    ("employment_discrimination", "fired because");
    ("employment_discrimination", "due to your age");
    ("employment_discrimination", "because of your race");
    ("antitrust", "fix prices"); ("antitrust", "divide markets");
    ("antitrust", "collusion") ].

(** [a] is one of the alternatives of [b]. *)
Fixpoint alternative (a b : regex) : Prop :=
  a = b \/
  match b with
  | BRANCH b1 b2 => alternative a b1 \/ alternative a b2
  | _ => False
  end.

(** The characters of [w] as literals, one after the other, then [tail]. *)
Definition literals_then (w : pystr) (tail : regex) : regex :=
  seq_of (map (fun c => ATOM (LITERAL c)) w ++ [tail]).

(** * Properties *)

(** Every pattern of the catalog compiles. *)
Lemma compile_patterns_succeeds : _compile_patterns = Some _PATTERNS.
Proof. reflexivity. Qed.

(** The categories named above are entries of the catalog. *)
Lemma named_categories_in_catalog :
  incl [admission_of_fault; over_promise; hostile_language; sensitive_data]
       _PATTERNS.
Proof.
  intros rp [<-|[<-|[<-|[<-|[]]]]]; unfold _PATTERNS; simpl; tauto.
Qed.

(** The categories of the catalog have different names. *)
Lemma category_names_distinct : NoDup (map category _PATTERNS).
Proof.
  unfold _PATTERNS. simpl map.
  repeat (constructor; [simpl; intuition discriminate|]). constructor.
Qed.

Section Loop.

Variable db : unicode_db.

Lemma fold_left_pointwise {A B : Type} (f g : A -> B -> A) :
  (forall a x, f a x = g a x) ->
  forall l a, fold_left f l a = fold_left g l a.
Proof.
  intros H l; induction l as [|x l IH]; intros a; simpl.
  - reflexivity.
  - now rewrite H, IH.
Qed.

Lemma fold_append {A B : Type} (f : B -> A) (l : list B) (a : list A) :
  fold_left (fun acc x => acc ++ [f x]) l a = a ++ map f l.
Proof.
  revert a; induction l as [|x l IH]; intros a; simpl.
  - now rewrite app_nil_r.
  - rewrite IH, <- app_assoc. reflexivity.
Qed.

Lemma fold_flat {A B : Type} (f : B -> list A) (l : list B) (a : list A) :
  fold_left (fun acc x => acc ++ f x) l a = a ++ flat_map f l.
Proof.
  revert a; induction l as [|x l IH]; intros a; simpl.
  - now rewrite app_nil_r.
  - rewrite IH, <- app_assoc. reflexivity.
Qed.

Lemma map_flat {A B C : Type} (f : B -> C) (g : A -> list B) (l : list A) :
  map f (flat_map g l) = flat_map (fun x => map f (g x)) l.
Proof.
  induction l as [|x l IH]; simpl.
  - reflexivity.
  - now rewrite map_app, IH.
Qed.

(** [RiskPattern.match] lists the matches of the category in pattern order,
    then match order, each with its stripped context. *)
Lemma RiskPattern_match_spec rp text :
  RiskPattern_match db rp text =
  map (fun m => (snippet_of db text m, fst m, snd m)) (category_matches db rp text).
Proof.
  unfold RiskPattern_match, category_matches.
  rewrite (fold_left_pointwise _
             (fun matches regex =>
                matches ++ map (fun m => (snippet_of db text m, fst m, snd m))
                               (finditer db regex text))).
  - rewrite fold_flat. simpl. symmetry. apply map_flat.
  - intros matches regex.
    rewrite (fold_left_pointwise _
               (fun acc m => acc ++ [(snippet_of db text m, fst m, snd m)])).
    + apply fold_append.
    + intros acc [s e]. reflexivity.
Qed.

Lemma step_spec text a rp :
  step db text a rp =
  {| categories_found :=
       categories_found a ++ (if hit db text rp then [category rp] else []);
     snippets := snippets a ++ entries_of db text rp;
     flag_count :=
       (flag_count a + Z.of_nat (length (category_matches db rp text)))%Z |}.
Proof.
  unfold step, hit, entries_of. rewrite RiskPattern_match_spec.
  destruct (category_matches db rp text) as [|m ms] eqn:E.
  - destruct a; simpl. now rewrite !app_nil_r, Z.add_0_r.
  - cbv zeta. change (map ?f (m :: ms)) with (f m :: map f ms) at 1.
    cbv iota beta. f_equal.
    + rewrite (fold_left_pointwise _
                 (fun acc (x : pystr * nat * nat) =>
                    acc ++ [annotate (category rp) (shorten (fst (fst x)))])).
      * rewrite fold_append, map_map. reflexivity.
      * intros acc [[sn s] e]. reflexivity.
    + now rewrite length_map.
Qed.

Lemma fold_step_spec text l a :
  fold_left (step db text) l a =
  {| categories_found :=
       categories_found a ++ map category (filter (hit db text) l);
     snippets := snippets a ++ flat_map (entries_of db text) l;
     flag_count :=
       (flag_count a +
        Z.of_nat (length (flat_map (fun rp => category_matches db rp text) l)))%Z |}.
Proof.
  revert a; induction l as [|rp l IH]; intros a; simpl.
  - destruct a; simpl. now rewrite !app_nil_r, Z.add_0_r.
  - rewrite IH, step_spec. simpl. f_equal.
    + rewrite <- app_assoc. f_equal. now destruct (hit db text rp).
    + now rewrite <- app_assoc.
    + rewrite length_app. lia.
Qed.

Lemma categories_found_spec text :
  categories_found (scan_catalog db text) =
  map category (filter (hit db text) _PATTERNS).
Proof. unfold scan_catalog. now rewrite fold_step_spec. Qed.

Lemma snippets_spec text :
  snippets (scan_catalog db text) = expected_entries db text.
Proof. unfold scan_catalog. now rewrite fold_step_spec. Qed.

Lemma flag_count_spec text :
  flag_count (scan_catalog db text) = Z.of_nat (total_matches db text).
Proof. unfold scan_catalog. now rewrite fold_step_spec. Qed.

Lemma length_expected_entries text :
  length (expected_entries db text) = total_matches db text.
Proof.
  unfold expected_entries, total_matches.
  induction _PATTERNS as [|rp l IH]; simpl.
  - reflexivity.
  - unfold entries_of at 1. now rewrite !length_app, length_map, IH.
Qed.

(** Every category that was hit contributed at least one match. *)
Lemma hits_le_matches text (l : list RiskPattern) :
  length (filter (hit db text) l) <=
  length (flat_map (fun rp => category_matches db rp text) l).
Proof.
  induction l as [|rp l IH]; simpl.
  - lia.
  - rewrite length_app. unfold hit at 1.
    destruct (category_matches db rp text); simpl; lia.
Qed.

Lemma length_insert_sorted x l : length (insert_sorted x l) = S (length l).
Proof.
  induction l as [|y l IH]; simpl.
  - reflexivity.
  - destruct (str_leb x y); simpl; now rewrite ?IH.
Qed.

Lemma length_sorted l : length (sorted l) = length l.
Proof.
  induction l as [|x l IH]; simpl.
  - reflexivity.
  - now rewrite length_insert_sorted, IH.
Qed.

Lemma length_set_of l : length (set_of l) <= length l.
Proof.
  unfold set_of. induction l as [|x l IH]; simpl.
  - lia.
  - destruct (in_dec str_eq_dec x l); simpl; lia.
Qed.

(** The scanning buffer is the subject, a newline and the body, a missing or
    null field read as the empty string. *)
Lemma combined_text_fields (email : dict) :
  combined_text email =
  field_text email "subject" ++ [10%N] ++ field_text email "body".
Proof.
  assert (F : forall key,
            py_format (py_or (dict_get email key (PyStr [])) (PyStr []))
            = field_text email key).
  { intros key. unfold field_text.
    induction email as [|[k v] d IH]; simpl.
    - reflexivity.
    - destruct (String.eqb k key); [|exact IH].
      now destruct v as [|[|c s]]. }
  unfold combined_text. now rewrite !F.
Qed.

Lemma categories_le_flags text :
  (Z.of_nat (length (set_of (categories_found (scan_catalog db text)))) <=
   flag_count (scan_catalog db text))%Z.
Proof.
  rewrite flag_count_spec, categories_found_spec. apply inj_le.
  etransitivity; [apply length_set_of|].
  rewrite length_map. apply hits_le_matches.
Qed.

End Loop.

(** * The score and the counts *)

Section Score.

Variable db : unicode_db.

Lemma NoDup_map_filter {A B : Type} (f : A -> B) (g : A -> bool) (l : list A) :
  NoDup (map f l) -> NoDup (map f (filter g l)).
Proof.
  induction l as [|x l IH]; simpl; intros H; [constructor|].
  inversion H as [|y l' Hx Hl]; subst.
  destruct (g x); simpl; [|auto].
  constructor; [|auto].
  intros Hin. apply Hx. apply in_map_iff in Hin as (z & Hz & Hin).
  apply filter_In in Hin as [Hin _]. apply in_map_iff. eauto.
Qed.

(** With the names of the catalog all different, the distinct categories
    that were hit are as many as the catalog entries with a match. *)
Lemma categories_hit_count text :
  length (categories_hit db text) = length (filter (hit db text) _PATTERNS).
Proof.
  unfold categories_hit, set_of.
  rewrite nodup_fixed_point, length_map; [reflexivity|].
  apply NoDup_map_filter, category_names_distinct.
Qed.

(** C1: the score is the number of flags times max(1, number of distinct
    categories that had at least one match); with zero flags it is 0, and with
    k >= 1 distinct categories it is the number of flags times k. *)
Theorem risk_score_formula (email : dict) :
  let r := analyze_email db email in
  let k := Z.of_nat (length (categories_hit db (combined_text email))) in
  risk_score r = (num_flags r * Z.max 1 k)%Z /\
  (num_flags r = 0%Z -> risk_score r = 0%Z) /\
  ((1 <= k)%Z -> risk_score r = (num_flags r * k)%Z).
Proof.
  cbv zeta. unfold analyze_email, categories_hit; cbn [risk_score num_flags].
  rewrite categories_found_spec.
  set (k := Z.of_nat _). set (n := flag_count _).
  assert (E : or_one k = Z.max 1 k).
  { unfold or_one. destruct (Z.eqb_spec k 0); subst k; lia. }
  rewrite E. split; [reflexivity|split].
  - intros H. rewrite H. apply Z.mul_0_l.
  - intros H. now rewrite Z.max_r.
Qed.

(** C6: the number of flags and the score are not negative, and the score is 0
    exactly when there is no flag. *)
Theorem score_zero_iff_no_flags (email : dict) :
  let r := analyze_email db email in
  (0 <= num_flags r)%Z /\ (0 <= risk_score r)%Z /\
  (risk_score r = 0%Z <-> num_flags r = 0%Z).
Proof.
  cbv zeta. unfold analyze_email; cbn [risk_score num_flags].
  rewrite flag_count_spec.
  set (n := Z.of_nat (total_matches _ _)).
  set (k := Z.of_nat (length _)).
  assert (Hn : (0 <= n)%Z) by (subst n; lia).
  assert (Hk : (1 <= or_one k)%Z).
  { unfold or_one. destruct (Z.eqb_spec k 0); subst k; lia. }
  repeat split; try nia.
Qed.

(** C7: when the result names at least one category, the number of flags is
    at least the number of categories it names. *)
Theorem flags_cover_categories (email : dict) :
  result_categories db email <> [] ->
  (Z.of_nat (length (result_categories db email))
   <= num_flags (analyze_email db email))%Z.
Proof.
  intros _. unfold result_categories, analyze_email; cbn [num_flags].
  rewrite length_sorted. apply categories_le_flags.
Qed.

(** The category string of the result is the comma-joined list
    [result_categories]. *)
Lemma risk_categories_joined (email : dict) :
  risk_categories (analyze_email db email) =
  join (str ", ") (result_categories db email).
Proof.
  unfold analyze_email, result_categories. cbn [risk_categories]. reflexivity.
Qed.

(** C9: the snippet string is the "; "-join of one entry "[category] snippet"
    per match, in catalog order, then pattern order, then match order. *)
Theorem flagged_snippets_in_catalog_order (email : dict) :
  let r := analyze_email db email in
  let text := combined_text email in
  flagged_snippets r = join (str "; ") (expected_entries db text) /\
  Z.of_nat (length (expected_entries db text)) = num_flags r /\
  expected_entries db text =
    flat_map
      (fun rp =>
         flat_map
           (fun regex =>
              map (fun m => str "[" ++ category rp ++ str "] "
                            ++ shorten (strip db (context text (fst m) (snd m))))
                  (finditer db regex text))
           (patterns rp))
      _PATTERNS.
Proof.
  cbv zeta. unfold analyze_email; cbn [flagged_snippets num_flags].
  rewrite snippets_spec, flag_count_spec, length_expected_entries.
  repeat split.
  unfold expected_entries. apply flat_map_ext. intros rp.
  unfold entries_of, category_matches. now rewrite map_flat.
Qed.

End Score.

(** The email of scenario A: three flags in two categories, score six. *)
Lemma risk_score_formula_witness :
  risk_score
    (analyze_email excerpt_db
       (email_of "Urgent"
          "I admit we are responsible for this and will ensure compensation."))
  = (3 * 2)%Z.
Proof.
  apply (risk_score_formula excerpt_db
           (email_of "Urgent"
              "I admit we are responsible for this and will ensure compensation.")).
  vm_compute. discriminate.
Defined.

(** The email of scenario A names two categories and has three flags. *)
Lemma flags_cover_categories_witness :
  result_categories excerpt_db
    (email_of "Urgent"
       "I admit we are responsible for this and will ensure compensation.") <> []
  /\ (2 <= 3)%Z.
Proof.
  split.
  - vm_compute. discriminate.
  - apply (flags_cover_categories excerpt_db
             (email_of "Urgent"
                "I admit we are responsible for this and will ensure compensation.")).
    vm_compute. discriminate.
Defined.

(** * The matcher against what a pattern matches *)

Section EngineFacts.

Variable db : unicode_db.

Lemma nth_error_skipn {A : Type} (l : list A) (i p : nat) :
  nth_error (skipn i l) p = nth_error l (i + p).
Proof.
  revert l; induction i as [|i IH]; intros l; simpl.
  - reflexivity.
  - destruct l as [|x l]; simpl.
    + now destruct p.
    + apply IH.
Qed.

(** The characters of a run are accepted by the atom. *)
Lemma run_accepted a s p :
  p < run db a s ->
  exists d, nth_error s p = Some d /\ atom_match db a d = true.
Proof.
  revert p; induction s as [|c s IH]; intros p; simpl.
  - lia.
  - destruct (atom_match db a c) eqn:E; [|lia].
    destruct p as [|p]; simpl.
    + intros _. now exists c.
    + intros H. apply IH. lia.
Qed.

(** A stretch of accepted characters is part of the run. *)
Lemma run_reaches a s n :
  (forall p, p < n ->
     exists d, nth_error s p = Some d /\ atom_match db a d = true) ->
  n <= run db a s.
Proof.
  revert s; induction n as [|n IH]; intros s H.
  - lia.
  - destruct (H 0) as (d & Hd & Ha); [lia|].
    destruct s as [|c s]; [discriminate|]. simpl in Hd. injection Hd as ->.
    simpl. rewrite Ha. apply le_n_S, IH.
    intros p Hp. apply (H (S p)). lia.
Qed.

Lemma repeat_one_sound k i lo n e :
  repeat_one k i lo n = Some e ->
  exists m, lo <= m <= n /\ k (i + m) = Some e.
Proof.
  induction n as [|n IH]; simpl.
  - destruct (Nat.ltb_spec 0 lo) as [|Hlo]; [discriminate|].
    destruct (k (i + 0)) eqn:E; [|discriminate].
    intros [= <-]. exists 0. split; [lia|assumption].
  - destruct (Nat.ltb_spec (S n) lo) as [|Hlo]; [discriminate|].
    destruct (k (i + S n)) eqn:E.
    + intros [= <-]. exists (S n). split; [lia|assumption].
    + intros H. destruct (IH H) as (m & Hm & Hk).
      exists m. split; [lia|assumption].
Qed.

Lemma repeat_one_complete k i lo n m e :
  lo <= m <= n -> k (i + m) = Some e ->
  exists e', repeat_one k i lo n = Some e'.
Proof.
  intros Hm Hk. induction n as [|n IH]; simpl.
  - assert (m = 0) by lia. subst m.
    destruct (Nat.ltb_spec 0 lo); [lia|]. rewrite Hk. eauto.
  - destruct (Nat.ltb_spec (S n) lo); [lia|].
    destruct (k (i + S n)) eqn:E; [eauto|].
    apply IH. assert (m <> S n) by (intros ->; congruence). lia.
Qed.

(** Soundness: an end the matcher returns was accepted by the continuation
    at the end of a match of the pattern. *)
Lemma sre_match_sound r text : forall i k e,
  sre_match db r text i k = Some e ->
  exists j, matches db text r i j /\ k j = Some e.
Proof.
  induction r as [|a| |r1 IH1 r2 IH2|r1 IH1 r2 IH2|lo hi a]; intros i k e; simpl.
  - intros H. exists i. split; [constructor|assumption].
  - destruct (nth_error text i) as [d|] eqn:Hd; [|discriminate].
    destruct (atom_match db a d) eqn:Ha; [|discriminate].
    intros H. exists (S i). split; [econstructor; eassumption|assumption].
  - destruct (at_boundary db text i) eqn:Hb; [|discriminate].
    intros H. exists i. split; [now constructor|assumption].
  - intros H. apply IH1 in H as (j & Hj & H).
    apply IH2 in H as (j' & Hj' & H).
    exists j'. split; [econstructor; eassumption|assumption].
  - destruct (sre_match db r1 text i k) as [e1|] eqn:E1.
    + intros [= <-]. apply IH1 in E1 as (j & Hj & H).
      exists j. split; [now apply M_left|assumption].
    + intros H. apply IH2 in H as (j & Hj & H).
      exists j. split; [now apply M_right|assumption].
  - intros H. apply repeat_one_sound in H as (m & Hm & H).
    exists (i + m). split; [|assumption].
    unfold count in Hm. constructor.
    + lia.
    + intros h ->. lia.
    + intros p Hp. rewrite <- nth_error_skipn. apply run_accepted.
      destruct hi; lia.
Qed.

(** Completeness: when the pattern has a match whose end the continuation
    accepts, the matcher returns some end. *)
Lemma sre_match_complete r text i j :
  matches db text r i j ->
  forall k e, k j = Some e -> exists e', sre_match db r text i k = Some e'.
Proof.
  induction 1 as [i|a i d Hd Ha|i Hb|r1 r2 i j j' _ IH1 _ IH2
                 |r1 r2 i j _ IH|r1 r2 i j _ IH|lo hi a i n Hlo Hhi Hall];
    intros k e Hk; simpl.
  - eauto.
  - rewrite Hd, Ha. eauto.
  - rewrite Hb. eauto.
  - destruct (IH2 _ _ Hk) as (e2 & H2). apply (IH1 _ e2 H2).
  - destruct (IH _ _ Hk) as (e1 & ->). eauto.
  - destruct (sre_match db r1 text i k); [eauto|]. apply (IH _ _ Hk).
  - apply repeat_one_complete with (m := n) (e := e); [|assumption].
    unfold count. split; [assumption|].
    assert (n <= run db a (skipn i text)).
    { apply run_reaches. intros p Hp. rewrite nth_error_skipn. now apply Hall. }
    destruct hi as [h|]; [|assumption].
    specialize (Hhi h eq_refl). lia.
Qed.

(** A match does not end before it starts. *)
Lemma matches_forward r text i j : matches db text r i j -> i <= j.
Proof. induction 1; lia. Qed.

(** Every character a match runs over is accepted by an item of the
    pattern. *)
Lemma matches_accepts r text i j :
  matches db text r i j ->
  forall p, i <= p < j ->
  exists d, nth_error text p = Some d /\ accepts db r d = true.
Proof.
  induction 1 as [i|a i d Hd Ha|i Hb|r1 r2 i j j' H1 IH1 H2 IH2
                 |r1 r2 i j _ IH|r1 r2 i j _ IH|lo hi a i n Hlo Hhi Hall];
    intros p Hp; simpl.
  - lia.
  - assert (p = i) by lia. subst p. eauto.
  - lia.
  - destruct (Nat.lt_ge_cases p j) as [Hlt|Hge].
    + destruct (IH1 p) as (d & Hd & Ha); [lia|].
      exists d. now rewrite Ha.
    + destruct (IH2 p) as (d & Hd & Ha); [lia|].
      exists d. rewrite Ha. now rewrite orb_true_r.
  - destruct (IH p Hp) as (d & Hd & Ha). exists d. now rewrite Ha.
  - destruct (IH p Hp) as (d & Hd & Ha). exists d. rewrite Ha.
    now rewrite orb_true_r.
  - destruct (Hall (p - i)) as (d & Hd & Ha); [lia|].
    replace (i + (p - i)) with p in Hd by lia. eauto.
Qed.

Lemma match_at_sound r text s e :
  match_at db r text s = Some e -> matches db text r s e.
Proof.
  intros H. apply sre_match_sound in H as (j & Hj & [= <-]). assumption.
Qed.

Lemma match_advancing_sound r text s e :
  match_advancing db r text s = Some e -> matches db text r s e /\ s < e.
Proof.
  intros H. apply sre_match_sound in H as (j & Hj & H).
  destruct (Nat.eqb_spec j s); [discriminate|]. injection H as <-.
  split; [assumption|]. apply matches_forward in Hj. lia.
Qed.

Lemma match_at_complete r text s e :
  matches db text r s e -> exists e', match_at db r text s = Some e'.
Proof. intros H. apply (sre_match_complete _ _ _ _ H) with (e := e). reflexivity. Qed.

(** Every match [finditer] yields is a match of the pattern. *)
Lemma scan_sound r text n : forall s0 lim s e,
  In (s, e) (scan db r text n s0 lim) -> matches db text r s e.
Proof.
  induction n as [|n IH]; intros s0 lim s e; simpl.
  - intros [].
  - destruct (s0 <? lim); [apply IH|].
    destruct (match_at db r text s0) as [e0|] eqn:E0; [|apply IH].
    destruct (Nat.eqb_spec e0 s0) as [->|Hne].
    + intros [[= <- <-]|H]; [now apply match_at_sound|].
      destruct (match_advancing db r text s0) as [e1|] eqn:E1; [|now apply IH in H].
      destruct H as [[= <- <-]|H]; [|now apply IH in H].
      now apply match_advancing_sound in E1.
    + intros [[= <- <-]|H]; [now apply match_at_sound|now apply IH in H].
Qed.

Lemma finditer_sound r text s e :
  In (s, e) (finditer db r text) -> matches db text r s e.
Proof. apply scan_sound. Qed.

(** A position where the pattern matches is the start of a match that
    [finditer] yields, or lies inside one. *)
Lemma scan_covers r text n : forall s0 lim i,
  s0 <= i < s0 + n -> lim <= i ->
  match_at db r text i <> None ->
  exists s e, In (s, e) (scan db r text n s0 lim) /\ s <= i /\ (i < e \/ s = i).
Proof.
  induction n as [|n IH]; intros s0 lim i Hi Hlim Hm; simpl; [lia|].
  assert (Next : forall lim', lim' <= i -> s0 <> i ->
            exists s e, In (s, e) (scan db r text n (S s0) lim') /\
                        s <= i /\ (i < e \/ s = i)).
  { intros lim' Hl Hne. apply IH; [lia|assumption|assumption]. }
  destruct (Nat.ltb_spec s0 lim) as [Hlt|Hge].
  { apply Next; lia. }
  destruct (match_at db r text s0) as [e0|] eqn:E0.
  2:{ apply Next; [assumption|]. intros ->. contradiction. }
  destruct (Nat.eq_dec s0 i) as [->|Hne].
  { exists i, e0. destruct (Nat.eqb_spec e0 i) as [->|]; simpl; auto. }
  destruct (Nat.eqb_spec e0 s0) as [->|He0].
  - destruct (match_advancing db r text s0) as [e1|] eqn:E1.
    + destruct (Nat.lt_ge_cases i e1) as [Hin|Hout].
      * exists s0, e1. simpl. split; [auto|]. lia.
      * destruct (Next e1 Hout Hne) as (s & e & H & Hs).
        exists s, e. simpl. auto.
    + destruct (Next lim Hlim Hne) as (s & e & H & Hs).
      exists s, e. simpl. auto.
  - destruct (Nat.lt_ge_cases i e0) as [Hin|Hout].
    + exists s0, e0. simpl. split; [auto|]. lia.
    + destruct (Next e0 Hout Hne) as (s & e & H & Hs).
      exists s, e. simpl. auto.
Qed.

Lemma finditer_covers r text i :
  i <= length text ->
  match_at db r text i <> None ->
  exists s e, In (s, e) (finditer db r text) /\ s <= i /\ (i < e \/ s = i).
Proof.
  intros Hi Hm. apply scan_covers; [lia|lia|assumption].
Qed.

(** A match of a pattern written between two [\b] starts and ends at a word
    boundary. *)
Lemma bounded_matches r text s e :
  matches db text (bounded r) s e ->
  at_boundary db text s = true /\ at_boundary db text e = true /\
  matches db text r s e.
Proof.
  unfold bounded. intros H.
  inversion H as [| | |r1 r2 i j k H1 H2| | |]; subst.
  inversion H1; subst.
  inversion H2 as [| | |r1' r2' i' j' k' H3 H4| | |]; subst.
  inversion H4; subst. auto.
Qed.

Lemma boundary_not_inside text i :
  at_boundary db text i = true -> inside_word db text i = false.
Proof.
  unfold at_boundary, inside_word.
  destruct (word_at db text i), (word_before db text i); simpl; congruence.
Qed.

End EngineFacts.

(** * Word boundaries *)

Section Boundaries.

Variable db : unicode_db.

(** A match of a pattern that starts with [\b] starts at a word boundary. *)
Lemma starts_at_boundary_sound r text s e :
  matches db text r s e -> starts_at_boundary r = true ->
  at_boundary db text s = true.
Proof.
  induction 1; simpl; intros Hb; try discriminate; auto.
  - apply andb_true_iff in Hb as [Hb _]. auto.
  - apply andb_true_iff in Hb as [_ Hb]. auto.
Qed.

(** A match of a pattern that ends with [\b] ends at a word boundary. *)
Lemma ends_at_boundary_sound r text s e :
  matches db text r s e -> ends_at_boundary r = true ->
  at_boundary db text e = true.
Proof.
  induction 1; simpl; intros Hb; try discriminate; auto.
  - apply andb_true_iff in Hb as [Hb _]. auto.
  - apply andb_true_iff in Hb as [_ Hb]. auto.
Qed.

(** All the patterns of the catalog but the SSN one start and end with
    [\b]. *)
Lemma catalog_bounded rp p :
  In rp _PATTERNS -> In p (patterns rp) ->
  p = ssn_number \/
  (starts_at_boundary p = true /\ ends_at_boundary p = true).
Proof.
  unfold _PATTERNS. intros Hrp Hp.
  repeat (destruct Hrp as [<-|Hrp];
          [repeat (destruct Hp as [<-|Hp];
                   [solve [now left | right; split; reflexivity]|]);
           destruct Hp|]).
  destruct Hrp.
Qed.

(** C3, amended: every match of a catalog pattern other than the SSN pattern
    starts and ends at a word boundary, so neither end of it lies inside a
    word. *)
Theorem bounded_patterns_respect_words rp p text s e :
  In rp _PATTERNS -> In p (patterns rp) -> p <> ssn_number ->
  In (s, e) (finditer db p text) ->
  (at_boundary db text s = true /\ at_boundary db text e = true) /\
  (inside_word db text s = false /\ inside_word db text e = false).
Proof.
  intros Hrp Hp Hssn Hin.
  destruct (catalog_bounded rp p Hrp Hp) as [->|[Hs He]]; [contradiction|].
  apply finditer_sound in Hin.
  pose proof (starts_at_boundary_sound _ _ _ _ Hin Hs).
  pose proof (ends_at_boundary_sound _ _ _ _ Hin He).
  auto using boundary_not_inside.
Qed.

End Boundaries.

(** The SSN pattern matches in the middle of the token
    "XSSN123-45-67890": both ends of the match lie inside a word. *)
Lemma ssn_matches_inside_word :
  ~ (forall rp p text s e,
       In rp _PATTERNS -> In p (patterns rp) ->
       In (s, e) (finditer excerpt_db p text) ->
       inside_word excerpt_db text s = false /\
       inside_word excerpt_db text e = false).
Proof.
  intros H.
  specialize (H sensitive_data ssn_number (str "XSSN123-45-67890") 1 15).
  destruct H as [H _].
  - unfold _PATTERNS, _compile_patterns. simpl. tauto.
  - simpl. tauto.
  - vm_compute. tauto.
  - vm_compute in H. discriminate.
Qed.

(** "guarantee" is found as a word of its own. *)
Lemma bounded_patterns_respect_words_witness :
  at_boundary excerpt_db (str "we guarantee it") 3 = true /\
  at_boundary excerpt_db (str "we guarantee it") 12 = true.
Proof.
  apply (bounded_patterns_respect_words excerpt_db over_promise guarantee
           (str "we guarantee it") 3 12).
  - unfold _PATTERNS, _compile_patterns. simpl. tauto.
  - simpl. tauto.
  - discriminate.
  - vm_compute. tauto.
Defined.

(** "guarantee" inside "guaranteed" is not a match. *)
Example guaranteed_not_flagged db :
  finditer db guarantee (str "It is guaranteed") = [].
Proof. reflexivity. Qed.

(** * Literal phrases *)

Section Phrases.

Variable db : unicode_db.

Lemma literal_ignore_refl p : literal_ignore db p p = true.
Proof.
  unfold literal_ignore. destruct (iscased db p).
  - now rewrite N.eqb_refl.
  - apply N.eqb_refl.
Qed.

Lemma skipn_cons {A : Type} (l : list A) : forall i x l',
  skipn i l = x :: l' -> nth_error l i = Some x /\ skipn (S i) l = l'.
Proof.
  induction l as [|y l IH]; intros [|i] x l'; simpl; try discriminate.
  - intros [= -> ->]. auto.
  - intros H. apply IH in H. exact H.
Qed.

Lemma occurs_at_cons c w text i :
  occurs_at (c :: w) text i ->
  nth_error text i = Some c /\ occurs_at w text (S i).
Proof.
  unfold occurs_at. cbn [length firstn].
  destruct (skipn i text) as [|x l] eqn:E; [discriminate|].
  intros [= -> Hw]. apply skipn_cons in E as [Hn Hs].
  rewrite Hs. auto.
Qed.

Lemma occurs_at_nth w : forall text i k,
  occurs_at w text i -> k < length w ->
  nth_error text (i + k) = nth_error w k.
Proof.
  induction w as [|c w IH]; intros text i k H Hk; simpl in Hk; [lia|].
  apply occurs_at_cons in H as [Hc Hw].
  destruct k as [|k]; simpl.
  - now rewrite Nat.add_0_r.
  - rewrite <- (IH text (S i) k Hw) by lia. f_equal. lia.
Qed.

(** A phrase that stands in the text is matched by its literal pattern. *)
Lemma literal_matches w : forall text i,
  occurs_at w text i ->
  matches db text (seq_of (map (fun c => ATOM (LITERAL c)) w)) i (i + length w).
Proof.
  induction w as [|c w IH]; intros text i H.
  - simpl. rewrite Nat.add_0_r. constructor.
  - apply occurs_at_cons in H as [Hc Hw].
    assert (Hatom : matches db text (ATOM (LITERAL c)) i (S i)).
    { apply M_atom with (d := c); [assumption|apply literal_ignore_refl]. }
    destruct w as [|c' w].
    + simpl. now rewrite Nat.add_1_r.
    + change (seq_of (map _ (c :: c' :: w)))
        with (SEQ (ATOM (LITERAL c))
                  (seq_of (map (fun c => ATOM (LITERAL c)) (c' :: w)))).
      apply M_seq with (j := S i); [assumption|].
      replace (i + length (c :: c' :: w)) with (S i + length (c' :: w))
        by (simpl; lia).
      now apply IH.
Qed.

Lemma lit_matches (w : string) text i :
  occurs_at (str w) text i ->
  matches db text (lit w) i (i + length (str w)).
Proof. apply literal_matches. Qed.

Lemma bounded_intro r text i j :
  at_boundary db text i = true -> at_boundary db text j = true ->
  matches db text r i j -> matches db text (bounded r) i j.
Proof.
  intros Hi Hj H. unfold bounded.
  apply M_seq with (j := i); [now constructor|].
  apply M_seq with (j := j); [assumption|now constructor].
Qed.

(** A phrase occupies positions of the text. *)
Lemma occurs_at_inside c w text i :
  occurs_at (c :: w) text i -> i < length text.
Proof.
  intros H. apply occurs_at_cons in H as [Hc _].
  apply nth_error_Some. congruence.
Qed.

(** Two different members make a list of length two at least. *)
Lemma two_members {A : Type} (x y : A) (l : list A) :
  In x l -> In y l -> x <> y -> 2 <= length l.
Proof.
  destruct l as [|a [|b l]]; simpl; intros Hx Hy Hne.
  - contradiction.
  - destruct Hx as [<-|[]], Hy as [<-|[]]. congruence.
  - lia.
Qed.

Lemma one_member {A : Type} (x : A) (l : list A) : In x l -> 1 <= length l.
Proof. destruct l; simpl; [tauto|lia]. Qed.

Lemma occurs_at_app a b text i :
  occurs_at (a ++ b) text i ->
  occurs_at a text i /\ occurs_at b text (i + length a).
Proof.
  revert text i; induction a as [|c a IH]; intros text i H.
  - split; [reflexivity|]. now rewrite Nat.add_0_r.
  - change ((c :: a) ++ b) with (c :: (a ++ b)) in H.
    apply occurs_at_cons in H as [Hc H]. apply IH in H as [Ha Hb].
    split.
    + unfold occurs_at in *. cbn [length firstn].
      destruct (skipn i text) as [|x l] eqn:E.
      * apply (f_equal (@length _)) in E. rewrite length_skipn in E.
        assert (i < length text) by (apply nth_error_Some; congruence).
        simpl in E. lia.
      * apply skipn_cons in E as [Hx Hl]. rewrite Hl in Ha.
        rewrite Ha. congruence.
    + replace (i + length (c :: a)) with (S i + length a) by (simpl; lia).
      assumption.
Qed.

(** Between a word character and a character that is none there is a word
    boundary. *)
Lemma boundary_between text i c d :
  nth_error text i = Some c -> nth_error text (S i) = Some d ->
  is_word db c = negb (is_word db d) ->
  at_boundary db text (S i) = true.
Proof.
  intros Hc Hd Hw. unfold at_boundary, word_before, word_at.
  rewrite Hc, Hd, Hw. now destruct (is_word db d).
Qed.

(** A character no item of the pattern accepts lies in no match of it. *)
Lemma not_accepted_not_covered r text s e p d :
  matches db text r s e -> nth_error text p = Some d ->
  accepts db r d = false -> ~ (s <= p < e).
Proof.
  intros Hm Hd Ha Hp.
  destruct (matches_accepts db r text s e Hm p Hp) as (d' & Hd' & Ha').
  congruence.
Qed.

End Phrases.

(** * The hostile-language category *)

Section Hostile.

Variable db : unicode_db.

Lemma insults_shape :
  insults =
  bounded (BRANCH (lit "idiot")
             (BRANCH (lit "stupid") (BRANCH (lit "incompetent") (lit "useless")))).
Proof. reflexivity. Qed.

Lemma demands_shape :
  demands =
  bounded (BRANCH (lit "pay up")
             (BRANCH (lit "or else") (compiled "you\s+must"))).
Proof. reflexivity. Qed.

Lemma insults_found text i :
  whole_at db (str "idiot") text i ->
  1 <= length (finditer db insults text).
Proof.
  intros (Ho & Hb & He).
  assert (Hm : matches db text insults i (i + 5)).
  { rewrite insults_shape. apply bounded_intro; [assumption|assumption|].
    apply M_left. now apply (lit_matches db "idiot"). }
  apply match_at_complete in Hm as (e & Hm).
  destruct (finditer_covers db insults text i) as (s & e' & Hin & _).
  - apply occurs_at_inside in Ho. lia.
  - congruence.
  - eapply one_member, Hin.
Qed.

(** "pay up or else" holds two matches of the second pattern: "pay up" and
    "or else". *)
Lemma demands_found_twice text j :
  whole_at db (str "pay up or else") text j ->
  2 <= length (finditer db demands text).
Proof.
  intros (Ho & Hb & He).
  assert (Hlen : j + 14 <= length text).
  { unfold occurs_at in Ho. apply (f_equal (@length _)) in Ho.
    rewrite length_firstn, length_skipn in Ho.
    change (length (str "pay up or else")) with 14 in Ho. lia. }
  assert (Hnth : forall k, k < 14 ->
            nth_error text (j + k) = nth_error (str "pay up or else") k).
  { intros k Hk. now apply occurs_at_nth. }
  change (str "pay up or else")
    with (str "pay up" ++ str " " ++ str "or else") in Ho.
  apply occurs_at_app in Ho as [Hpay Ho].
  apply occurs_at_app in Ho as [_ Helse].
  change (j + length (str "pay up") + length (str " ")) with (j + 6 + 1) in Helse.
  replace (j + 6 + 1) with (j + 7) in Helse by lia.
  assert (B6 : at_boundary db text (j + 6) = true).
  { replace (j + 6) with (S (j + 5)) by lia.
    apply boundary_between with (c := 112%N) (d := 32%N).
    - now rewrite (Hnth 5) by lia.
    - replace (S (j + 5)) with (j + 6) by lia. now rewrite (Hnth 6) by lia.
    - reflexivity. }
  assert (B7 : at_boundary db text (j + 7) = true).
  { replace (j + 7) with (S (j + 6)) by lia.
    apply boundary_between with (c := 32%N) (d := 111%N).
    - now rewrite (Hnth 6) by lia.
    - replace (S (j + 6)) with (j + 7) by lia. now rewrite (Hnth 7) by lia.
    - reflexivity. }
  assert (M1 : matches db text demands j (j + 6)).
  { rewrite demands_shape. apply bounded_intro; [assumption|assumption|].
    apply M_left. now apply (lit_matches db "pay up"). }
  assert (M2 : matches db text demands (j + 7) (j + 7 + 7)).
  { rewrite demands_shape. apply bounded_intro; [assumption| |].
    - replace (j + 7 + 7) with (j + 14) by lia. exact He.
    - apply M_right, M_left. now apply (lit_matches db "or else"). }
  apply match_at_complete in M1 as (e1 & M1).
  apply match_at_complete in M2 as (e2 & M2).
  destruct (finditer_covers db demands text j) as (s1 & f1 & In1 & Hs1 & Hc1);
    [lia|congruence|].
  destruct (finditer_covers db demands text (j + 7)) as (s2 & f2 & In2 & Hs2 & Hc2);
    [lia|congruence|].
  apply (two_members (s1, f1) (s2, f2)); [assumption|assumption|].
  intros [= <- <-].
  assert (Hcover : s1 <= j /\ j + 7 < f1) by lia.
  apply finditer_sound in In1. rewrite demands_shape in In1.
  apply bounded_matches in In1 as (_ & _ & Hm).
  inversion Hm as [| | | |r1 r2 i' j' Hl|r1 r2 i' j' Hr|]; subst.
  - (* "pay up" does not run over the "o" of "or" *)
    apply (not_accepted_not_covered db _ text s1 f1 (j + 7) 111%N Hl);
      [now rewrite (Hnth 7) by lia|reflexivity|lia].
  - inversion Hr as [| | | |r1 r2 i' j' Hl'|r1 r2 i' j' Hr'|]; subst.
    + (* "or else" does not run over the "p" of "pay" *)
      apply (not_accepted_not_covered db _ text s1 f1 (j + 0) 112%N Hl');
        [now rewrite (Hnth 0) by lia|reflexivity|lia].
    + (* nor does "you must" *)
      apply (not_accepted_not_covered db _ text s1 f1 (j + 0) 112%N Hr');
        [now rewrite (Hnth 0) by lia|reflexivity|lia].
Qed.

Lemma hostile_flags_count text :
  length (RiskPattern_match db hostile_language text) =
  length (finditer db insults text) + length (finditer db demands text).
Proof.
  rewrite RiskPattern_match_spec, length_map.
  unfold category_matches. simpl. rewrite !length_app. simpl. lia.
Qed.

(** C2, amended: when "idiot" and "pay up or else" both stand in the text
    between word boundaries, the hostile-language category has at least three
    flags: at least one of its first pattern and at least two of its second,
    which matches "pay up" and "or else" one after the other. *)
Theorem hostile_language_three_flags (email : dict) (i j : nat) :
  let text := combined_text email in
  whole_at db (str "idiot") text i ->
  whole_at db (str "pay up or else") text j ->
  1 <= length (finditer db insults text) /\
  2 <= length (finditer db demands text) /\
  3 <= length (RiskPattern_match db hostile_language text).
Proof.
  cbv zeta. intros Hi Hj.
  pose proof (insults_found _ _ Hi). pose proof (demands_found_twice _ _ Hj).
  rewrite hostile_flags_count. lia.
Qed.

End Hostile.

(** For the email "idiot pay up or else" the category has three flags, not
    two. *)
Lemma hostile_language_not_two_flags :
  ~ (forall email i j,
       occurs_at (str "idiot") (combined_text email) i ->
       occurs_at (str "pay up or else") (combined_text email) j ->
       length (RiskPattern_match excerpt_db hostile_language
                 (combined_text email)) = 2).
Proof.
  intros H.
  specialize (H (email_of "" "idiot pay up or else") 1 7 eq_refl eq_refl).
  vm_compute in H. discriminate.
Qed.

Lemma hostile_language_three_flags_witness :
  3 <= length (RiskPattern_match excerpt_db hostile_language
                 (combined_text (email_of "" "idiot pay up or else"))).
Proof.
  apply (hostile_language_three_flags excerpt_db
           (email_of "" "idiot pay up or else") 1 7).
  - repeat split.
  - repeat split.
Defined.

Example hostile_language_scenario db :
  map (fun m => (snd (fst m), snd m))
      (RiskPattern_match db hostile_language
         (combined_text (email_of "" "idiot pay up or else")))
  = [(1, 6); (7, 13); (14, 21)].
Proof. reflexivity. Qed.

(** * Snippets *)

Section Snippets.

Variable db : unicode_db.

Lemma shorten_long (snippet : pystr) :
  (200 < len snippet)%Z ->
  shorten snippet = firstn 200 snippet ++ [ellipsis] /\
  length (shorten snippet) = 201 /\
  last (shorten snippet) 0%N = ellipsis.
Proof.
  intros H. unfold shorten.
  destruct (Z.gtb_spec (len snippet) 200) as [_|]; [|lia].
  split; [reflexivity|]. split.
  - rewrite length_app, length_firstn. unfold len in H.
    change (length [ellipsis]) with 1. lia.
  - apply last_last.
Qed.

(** Every match of every pattern of the catalog has its entry among the
    snippets of the loop. *)
Lemma entry_recorded text rp regex m :
  In rp _PATTERNS -> In regex (patterns rp) -> In m (finditer db regex text) ->
  In (annotate (category rp) (shorten (snippet_of db text m)))
     (snippets (scan_catalog db text)).
Proof.
  intros Hrp Hre Hm. rewrite snippets_spec. unfold expected_entries.
  apply in_flat_map. exists rp. split; [assumption|].
  unfold entries_of.
  apply (in_map (fun m => annotate (category rp) (shorten (snippet_of db text m)))).
  unfold category_matches.
  apply in_flat_map. exists regex. auto.
Qed.

(** C4: when the stripped context of a match (40 characters before its start
    and 40 after its end, clamped to the text) is longer than 200 characters,
    the snippet recorded for it, before the category prefix, is its first 200
    characters followed by the ellipsis: 201 characters. *)
Theorem long_snippet_truncated (email : dict) rp regex (s e : nat) :
  let text := combined_text email in
  let window :=
    strip db (slice text (Z.max 0 (Z.of_nat s - 40))
                         (Z.min (len text) (Z.of_nat e + 40))) in
  In rp _PATTERNS -> In regex (patterns rp) ->
  In (s, e) (finditer db regex text) ->
  (200 < len window)%Z ->
  exists recorded,
    In (annotate (category rp) recorded) (snippets (scan_catalog db text)) /\
    recorded = firstn 200 window ++ [ellipsis] /\
    length recorded = 201 /\
    last recorded 0%N = ellipsis.
Proof.
  cbv zeta. intros Hrp Hre Hm Hlong.
  exists (shorten (snippet_of db (combined_text email) (s, e))). split.
  - now apply entry_recorded with (regex := regex).
  - apply shorten_long. exact Hlong.
Qed.

(** C5: a missing or null subject or body is read as the empty string, and
    the record whose subject and body are both empty has the result without
    any flag.  [analyze_email] is a total function of the record: no step of
    it can fail. *)
Theorem missing_fields_read_as_empty (email : dict) :
  combined_text email =
    field_text email "subject" ++ [10%N] ++ field_text email "body" /\
  (field_text email "subject" = [] -> field_text email "body" = [] ->
   analyze_email db email = no_flags).
Proof.
  split; [apply combined_text_fields|].
  intros Hs Hb. unfold analyze_email.
  rewrite combined_text_fields, Hs, Hb. reflexivity.
Qed.

(** C10: the subject "we" and the body "are responsible" are joined by the
    newline into a text the first pattern of admission_of_fault matches, though
    neither field has the phrase. *)
Theorem phrase_across_subject_and_body :
  let email := email_of "we" "are responsible" in
  risk_categories (analyze_email db email) = str "admission_of_fault" /\
  finditer db we_are_responsible (combined_text email) = [(0, 18)] /\
  finditer db we_are_responsible (str "we") = [] /\
  finditer db we_are_responsible (str "are responsible") = [] /\
  risk_categories (analyze_email db (email_of "we" "")) = [] /\
  risk_categories (analyze_email db (email_of "" "are responsible")) = [].
Proof. cbv zeta. repeat split. Qed.

End Snippets.

Lemma long_snippet_truncated_witness :
  exists recorded,
    In (annotate (str "admission_of_fault") recorded)
       (snippets (scan_catalog excerpt_db (combined_text stretched))) /\
    recorded = str "we" ++ repeat 32%N 198 ++ [ellipsis] /\
    length recorded = 201 /\
    last recorded 0%N = ellipsis.
Proof.
  apply (long_snippet_truncated excerpt_db stretched admission_of_fault
           we_are_responsible 1 218).
  - simpl. tauto.
  - simpl. tauto.
  - vm_compute. tauto.
  - vm_compute. reflexivity.
Defined.

Lemma missing_fields_read_as_empty_witness :
  analyze_email excerpt_db [("subject", PyNone)] = no_flags.
Proof.
  apply (missing_fields_read_as_empty excerpt_db [("subject", PyNone)]);
    reflexivity.
Defined.

(** * Case *)

Section Case.

Variable db : unicode_db.

(** The ASCII upper-case mapping moves the letters a-z onto A-Z and nothing
    else. *)
Lemma ascii_toupper_cases d :
  ascii_toupper d = d \/
  ((97 <= d <= 122)%N /\ ascii_toupper d = (d - 32)%N).
Proof.
  unfold ascii_toupper, ascii_islower, in_range.
  destruct (N.leb_spec 97 d), (N.leb_spec d 122); simpl; auto.
Qed.

Ltac letter_facts :=
  unfold tolower, toupper, isspace, isdecimal, isalnum, is_ascii,
    ascii_tolower, ascii_toupper, ascii_isspace, ascii_isdecimal, ascii_isalnum,
    ascii_isupper, ascii_islower, in_range;
  repeat match goal with
         | |- context [(?a <=? ?b)%N] => destruct (N.leb_spec a b); try lia
         | |- context [(?a <? ?b)%N] => destruct (N.ltb_spec a b); try lia
         end; simpl; try reflexivity; try lia.

Lemma tolower_toupper d : tolower db (ascii_toupper d) = tolower db d.
Proof.
  destruct (ascii_toupper_cases d) as [->|[Hd ->]]; [reflexivity|].
  letter_facts.
Qed.

Lemma isspace_toupper d : isspace db (ascii_toupper d) = isspace db d.
Proof.
  destruct (ascii_toupper_cases d) as [->|[Hd ->]]; [reflexivity|].
  letter_facts.
Qed.

Lemma isdecimal_toupper d : isdecimal db (ascii_toupper d) = isdecimal db d.
Proof.
  destruct (ascii_toupper_cases d) as [->|[Hd ->]]; [reflexivity|].
  letter_facts.
Qed.

Lemma is_word_toupper d : is_word db (ascii_toupper d) = is_word db d.
Proof.
  destruct (ascii_toupper_cases d) as [->|[Hd ->]]; [reflexivity|].
  unfold is_word.
  replace (d - 32 =? 95)%N with false by (symmetry; apply N.eqb_neq; lia).
  replace (d =? 95)%N with false by (symmetry; apply N.eqb_neq; lia).
  f_equal. letter_facts.
Qed.

(** The letters are cased. *)
Lemma letter_iscased p :
  (97 <= p <= 122)%N \/ (65 <= p <= 90)%N -> iscased db p = true.
Proof.
  intros Hp. unfold iscased. apply orb_true_iff.
  destruct Hp as [Hp|Hp]; [right|left]; apply negb_true_iff, N.eqb_neq.
  - letter_facts.
  - letter_facts.
Qed.

Lemma literal_ignore_toupper p d :
  literal_ignore db p (ascii_toupper d) = literal_ignore db p d.
Proof.
  unfold literal_ignore. rewrite tolower_toupper.
  destruct (iscased db p) eqn:Hp; [reflexivity|].
  destruct (ascii_toupper_cases d) as [->|[Hd ->]]; [reflexivity|].
  destruct (N.eqb_spec (d - 32) p) as [E1|_], (N.eqb_spec d p) as [E2|_];
    try reflexivity; exfalso; subst p;
    rewrite letter_iscased in Hp by lia; discriminate.
Qed.

Lemma atom_match_toupper a d :
  atom_match db a (ascii_toupper d) = atom_match db a d.
Proof.
  destruct a; simpl.
  - apply literal_ignore_toupper.
  - apply isspace_toupper.
  - apply isdecimal_toupper.
Qed.

Lemma word_at_toupper text i :
  word_at db (map ascii_toupper text) i = word_at db text i.
Proof.
  unfold word_at. rewrite nth_error_map.
  destruct (nth_error text i); simpl; [apply is_word_toupper|reflexivity].
Qed.

Lemma at_boundary_toupper text i :
  at_boundary db (map ascii_toupper text) i = at_boundary db text i.
Proof.
  unfold at_boundary, word_before. rewrite word_at_toupper.
  destruct i; [reflexivity|]. now rewrite word_at_toupper.
Qed.

Lemma run_toupper a s : run db a (map ascii_toupper s) = run db a s.
Proof.
  induction s as [|c s IH]; simpl; [reflexivity|].
  now rewrite atom_match_toupper, IH.
Qed.

Lemma count_toupper a text i hi :
  count db a (map ascii_toupper text) i hi = count db a text i hi.
Proof. unfold count. now rewrite skipn_map, run_toupper. Qed.

Lemma repeat_one_ext k k' i lo n :
  (forall j, k j = k' j) -> repeat_one k i lo n = repeat_one k' i lo n.
Proof.
  intros H. induction n as [|n IH]; simpl; rewrite H; [reflexivity|].
  now rewrite IH.
Qed.

(** Continuations that agree everywhere give the same result. *)
Lemma sre_match_ext r text : forall i k k',
  (forall j, k j = k' j) ->
  sre_match db r text i k = sre_match db r text i k'.
Proof.
  induction r as [|a| |r1 IH1 r2 IH2|r1 IH1 r2 IH2|lo hi a]; intros i k k' H;
    simpl.
  - apply H.
  - destruct (nth_error text i); [|reflexivity].
    destruct (atom_match db a c); [apply H|reflexivity].
  - destruct (at_boundary db text i); [apply H|reflexivity].
  - apply IH1. intros j. now apply IH2.
  - now rewrite (IH1 i k k' H), (IH2 i k k' H).
  - now apply repeat_one_ext.
Qed.

(** The matcher takes the same steps on a text and on its upper case. *)
Lemma sre_match_toupper r text : forall i k,
  sre_match db r (map ascii_toupper text) i k = sre_match db r text i k.
Proof.
  induction r as [|a| |r1 IH1 r2 IH2|r1 IH1 r2 IH2|lo hi a]; intros i k; simpl.
  - reflexivity.
  - rewrite nth_error_map. destruct (nth_error text i); simpl; [|reflexivity].
    now rewrite atom_match_toupper.
  - now rewrite at_boundary_toupper.
  - rewrite IH1. apply sre_match_ext. intros j. apply IH2.
  - now rewrite IH1, IH2.
  - now rewrite count_toupper.
Qed.

Lemma scan_toupper r text n : forall s lim,
  scan db r (map ascii_toupper text) n s lim = scan db r text n s lim.
Proof.
  induction n as [|n IH]; intros s lim; simpl; [reflexivity|].
  unfold match_at, match_advancing. rewrite !sre_match_toupper.
  destruct (s <? lim); [apply IH|].
  destruct (sre_match db r text s (fun j => Some j)) as [e|]; [|apply IH].
  destruct (e =? s); [|now rewrite IH].
  destruct (sre_match db r text s _) as [e'|]; now rewrite IH.
Qed.

Lemma finditer_toupper r text :
  finditer db r (map ascii_toupper text) = finditer db r text.
Proof. unfold finditer. now rewrite length_map, scan_toupper. Qed.

Lemma category_matches_toupper rp text :
  category_matches db rp (map ascii_toupper text) = category_matches db rp text.
Proof.
  unfold category_matches. apply flat_map_ext. intros r. apply finditer_toupper.
Qed.

Lemma hit_toupper text rp :
  hit db (map ascii_toupper text) rp = hit db text rp.
Proof. unfold hit. now rewrite category_matches_toupper. Qed.

(** [str.upper] on ASCII text moves each letter on its own. *)
Lemma upper_ascii s :
  forallb is_ascii s = true -> upper db s = map ascii_toupper s.
Proof.
  unfold upper. induction s as [|c s IH]; cbn [flat_map map forallb];
    [reflexivity|].
  intros H. apply andb_true_iff in H as [Hc Hs].
  rewrite (IH Hs). unfold upper_char. now rewrite Hc.
Qed.

Lemma field_text_upper (email : dict) (key : string) :
  key = "subject" \/ key = "body" ->
  field_text (upper_fields db email) key = upper db (field_text email key).
Proof.
  intros Hkey. unfold field_text.
  induction email as [|[k v] d IH]; simpl; [reflexivity|].
  destruct (String.eqb_spec k key) as [->|Hne].
  - assert (E : String.eqb key "subject" || String.eqb key "body" = true).
    { destruct Hkey as [->| ->]; reflexivity. }
    rewrite E. simpl. rewrite String.eqb_refl. now destruct v.
  - destruct (String.eqb k "subject" || String.eqb k "body"); simpl;
      destruct (String.eqb_spec k key); try contradiction; exact IH.
Qed.

Lemma combined_text_upper (email : dict) :
  forallb is_ascii (field_text email "subject") = true ->
  forallb is_ascii (field_text email "body") = true ->
  combined_text (upper_fields db email) =
  map ascii_toupper (combined_text email).
Proof.
  intros Hs Hb. rewrite !combined_text_fields.
  rewrite !field_text_upper by auto.
  rewrite !upper_ascii by assumption.
  now rewrite !map_app.
Qed.

Lemma scan_catalog_toupper text :
  categories_found (scan_catalog db (map ascii_toupper text)) =
    categories_found (scan_catalog db text) /\
  flag_count (scan_catalog db (map ascii_toupper text)) =
    flag_count (scan_catalog db text).
Proof.
  rewrite !categories_found_spec, !flag_count_spec. split.
  - f_equal. apply filter_ext. intros rp. apply hit_toupper.
  - unfold total_matches. do 2 f_equal.
    apply flat_map_ext. intros rp. apply category_matches_toupper.
Qed.

(** On a record whose subject and body are ASCII text, putting the two
    fields in upper case changes neither the categories of the result nor its
    number of flags nor its score; "We are responsible" and
    "WE ARE RESPONSIBLE" have the same categories. *)
Lemma ascii_case_insensitive (email : dict) :
  forallb is_ascii (field_text email "subject") = true ->
  forallb is_ascii (field_text email "body") = true ->
  (result_categories db (upper_fields db email) = result_categories db email /\
   risk_categories (analyze_email db (upper_fields db email)) =
     risk_categories (analyze_email db email) /\
   num_flags (analyze_email db (upper_fields db email)) =
     num_flags (analyze_email db email) /\
   risk_score (analyze_email db (upper_fields db email)) =
     risk_score (analyze_email db email)) /\
  risk_categories (analyze_email db (email_of "" "We are responsible")) =
    risk_categories (analyze_email db (email_of "" "WE ARE RESPONSIBLE")).
Proof.
  intros Hs Hb. split; [|reflexivity].
  unfold result_categories, analyze_email.
  cbn [risk_categories num_flags risk_score].
  rewrite (combined_text_upper email Hs Hb).
  destruct (scan_catalog_toupper (combined_text email)) as [-> ->].
  repeat split.
Qed.

End Case.

(** With the ligature of U+FB01 for "fi", "fix prices" is not matched, but its
    upper case "FIX PRICES" is. *)
Lemma upper_case_changes_categories :
  ~ (forall email,
       result_categories excerpt_db (upper_fields excerpt_db email) =
       result_categories excerpt_db email).
Proof.
  intros H. specialize (H ligature). vm_compute in H. discriminate.
Qed.

Lemma ascii_case_insensitive_witness :
  result_categories excerpt_db
    (upper_fields excerpt_db (email_of "Offer" "We are responsible")) =
  result_categories excerpt_db (email_of "Offer" "We are responsible").
Proof.
  apply (ascii_case_insensitive excerpt_db
           (email_of "Offer" "We are responsible")); reflexivity.
Defined.

Example ligature_upper :
  combined_text (upper_fields excerpt_db ligature) = 10%N :: str "FIX PRICES".
Proof. reflexivity. Qed.

Example ligature_categories :
  result_categories excerpt_db ligature = [] /\
  result_categories excerpt_db (upper_fields excerpt_db ligature)
  = [str "antitrust"].
Proof. split; reflexivity. Qed.

(** * Further properties of the analyzer *)

Section Records.

Variable db : unicode_db.

(** X1: the result depends on the record through its subject and its body
    only: other keys, the order of the keys, and the difference between a
    missing, a null and an empty field do not show. *)
Theorem other_keys_ignored (e1 e2 : dict) :
  field_text e1 "subject" = field_text e2 "subject" ->
  field_text e1 "body" = field_text e2 "body" ->
  analyze_email db e1 = analyze_email db e2.
Proof.
  intros Hs Hb. unfold analyze_email.
  now rewrite !combined_text_fields, Hs, Hb.
Qed.

End Records.

Lemma other_keys_ignored_witness :
  analyze_email excerpt_db (with_headers "Offer" "I admit it") =
  analyze_email excerpt_db (email_of "Offer" "I admit it").
Proof.
  apply (other_keys_ignored excerpt_db (with_headers "Offer" "I admit it")
           (email_of "Offer" "I admit it")); reflexivity.
Defined.

(** * Spans of the matches *)

Section Spans.

Variable db : unicode_db.

(** A match that starts in the text ends in the text. *)
Lemma matches_in_text r text i j :
  matches db text r i j -> i <= length text -> j <= length text.
Proof.
  induction 1 as [i|a i d Hd Ha|i Hb|r1 r2 i j k _ IH1 _ IH2
                 |r1 r2 i j _ IH|r1 r2 i j _ IH|lo hi a i n Hlo Hhi Hall];
    intros Hi; auto.
  - apply nth_error_Some. congruence.
  - destruct n as [|n]; [lia|].
    destruct (Hall n) as (d & Hd & _); [lia|].
    assert (i + n < length text) by (apply nth_error_Some; congruence). lia.
Qed.

(** A match runs over [min_width] characters at least. *)
Lemma matches_min_width r text i j :
  matches db text r i j -> i + min_width r <= j.
Proof. induction 1; simpl; lia. Qed.

(** [finditer] starts its matches at positions of the text. *)
Lemma scan_start_bound r text n : forall s0 lim s e,
  In (s, e) (scan db r text n s0 lim) -> s0 <= s < s0 + n.
Proof.
  induction n as [|n IH]; intros s0 lim s e; simpl; [intros []|].
  assert (Next : forall lim', In (s, e) (scan db r text n (S s0) lim') ->
                               s0 <= s < s0 + S n).
  { intros lim' H. apply IH in H. lia. }
  destruct (s0 <? lim); [apply Next|].
  destruct (match_at db r text s0) as [e0|]; [|apply Next].
  destruct (e0 =? s0).
  - intros [[= <- <-]|H]; [lia|].
    destruct (match_advancing db r text s0) as [e1|]; [|now apply Next in H].
    destruct H as [[= <- <-]|H]; [lia|now apply Next in H].
  - intros [[= <- <-]|H]; [lia|now apply Next in H].
Qed.

Lemma finditer_in_text r text s e :
  In (s, e) (finditer db r text) -> s <= e /\ e <= length text.
Proof.
  intros H. pose proof (scan_start_bound _ _ _ _ _ _ _ H) as Hs.
  apply finditer_sound in H. split.
  - now apply matches_forward in H.
  - apply (matches_in_text _ _ _ _ H). lia.
Qed.

(** Every pattern of the catalog runs over one character at least. *)
Lemma catalog_min_width rp p :
  In rp _PATTERNS -> In p (patterns rp) -> 1 <= min_width p.
Proof.
  unfold _PATTERNS. intros Hrp Hp.
  repeat (destruct Hrp as [<-|Hrp];
          [repeat (destruct Hp as [<-|Hp]; [simpl; lia|]); destruct Hp|]).
  destruct Hrp.
Qed.

(** X2: every match [RiskPattern.match] lists for a category of the catalog
    is a span of the text that is not empty, start < end <= len(text), and
    its snippet is the stripped context of that span. *)
Theorem match_spans_in_text rp text snippet s e :
  In rp _PATTERNS ->
  In (snippet, s, e) (RiskPattern_match db rp text) ->
  s < e /\ e <= length text /\
  snippet = strip db (context text s e).
Proof.
  intros Hrp Hin. rewrite RiskPattern_match_spec in Hin.
  apply in_map_iff in Hin as ([s' e'] & [= <- <- <-] & Hin).
  unfold category_matches in Hin.
  apply in_flat_map in Hin as (p & Hp & Hin).
  pose proof (catalog_min_width rp p Hrp Hp) as Hw.
  pose proof (finditer_in_text _ _ _ _ Hin) as [_ He].
  apply finditer_sound, matches_min_width in Hin.
  repeat split; [lia|assumption].
Qed.

Lemma ordered_weaken l : forall a b, a <= b -> ordered b l -> ordered a l.
Proof.
  destruct l as [|[s e] l]; simpl; [auto|].
  intros a b Hab (Hs & He & Hl). repeat split; [lia|assumption|assumption].
Qed.

Lemma scan_ordered r text n : forall s0 lim,
  ordered (Nat.max s0 lim) (scan db r text n s0 lim).
Proof.
  induction n as [|n IH]; intros s0 lim; simpl; [exact I|].
  assert (Next : forall lim' b, b <= Nat.max (S s0) lim' ->
                                ordered b (scan db r text n (S s0) lim')).
  { intros lim' b Hb. apply ordered_weaken with (b := Nat.max (S s0) lim');
      [assumption|apply IH]. }
  destruct (Nat.ltb_spec s0 lim) as [Hlt|Hge]; [apply Next; lia|].
  destruct (match_at db r text s0) as [e0|] eqn:E0; [|apply Next; lia].
  apply match_at_sound, matches_forward in E0.
  destruct (Nat.eqb_spec e0 s0) as [->|Hne].
  - simpl. repeat split; [lia|lia|].
    destruct (match_advancing db r text s0) as [e1|] eqn:E1.
    + apply match_advancing_sound in E1 as [_ E1]. simpl.
      repeat split; [lia|lia|]. apply Next. lia.
    + apply Next. lia.
  - simpl. repeat split; [lia|lia|]. apply Next. lia.
Qed.

(** X3: the matches of one pattern come from left to right and do not
    overlap: each starts at or after the end of the one before it. *)
Theorem finditer_ordered r text : ordered 0 (finditer db r text).
Proof. apply (scan_ordered r text (S (length text)) 0 0). Qed.

End Spans.

Lemma match_spans_in_text_witness :
  3 < 10 /\ 10 <= length (str "So I admit it")
  /\ str "So I admit it" = strip excerpt_db (context (str "So I admit it") 3 10).
Proof.
  apply (match_spans_in_text excerpt_db admission_of_fault
           (str "So I admit it") (str "So I admit it") 3 10).
  - apply named_categories_in_catalog. simpl. tauto.
  - vm_compute. tauto.
Defined.

(** * The context of a match and its snippet *)

Section Windows.

Variable db : unicode_db.

Lemma between_nat text a b :
  between text a b = firstn (b - a) (skipn a text).
Proof.
  unfold between, slice. rewrite Nat2Z.id. f_equal. lia.
Qed.

Lemma firstn_plus {A : Type} (a b : nat) : forall l : list A,
  firstn (a + b) l = firstn a l ++ firstn b (skipn a l).
Proof.
  induction a as [|a IH]; intros l; simpl; [reflexivity|].
  destruct l as [|x l]; simpl.
  - now rewrite firstn_nil.
  - now rewrite IH.
Qed.

Lemma between_split text a m b :
  a <= m <= b ->
  between text a b = between text a m ++ between text m b.
Proof.
  intros H. rewrite !between_nat.
  replace (b - a) with ((m - a) + (b - m)) by lia.
  rewrite firstn_plus, skipn_skipn.
  now replace (m - a + a) with m by lia.
Qed.

Lemma length_between text a b :
  a <= b <= length text -> length (between text a b) = b - a.
Proof.
  intros H. rewrite between_nat, length_firstn, length_skipn. lia.
Qed.

Lemma between_one text i c :
  nth_error text i = Some c -> between text i (S i) = [c].
Proof.
  intros H. rewrite between_nat. replace (S i - i) with 1 by lia.
  rewrite <- (Nat.add_0_r i) in H. rewrite <- nth_error_skipn in H.
  destruct (skipn i text) as [|x l]; [discriminate|].
  simpl in H. now injection H as ->.
Qed.

Lemma context_nat text s e :
  context text s e =
  between text (s - 40) (Nat.min (length text) (e + 40)).
Proof.
  unfold context, between, len. f_equal; lia.
Qed.

(** X5: the context of a span is the span with the 40 characters before it
    and the 40 characters after it, fewer where the text starts or ends
    earlier. *)
Theorem context_window text s e :
  s <= e <= length text ->
  context text s e =
    between text (s - 40) s ++ between text s e
    ++ between text e (Nat.min (length text) (e + 40)) /\
  length (between text (s - 40) s) = Nat.min s 40 /\
  length (between text s e) = e - s /\
  length (between text e (Nat.min (length text) (e + 40)))
  = Nat.min (length text - e) 40.
Proof.
  intros H. rewrite context_nat. repeat split.
  - rewrite (between_split text (s - 40) s) by lia.
    now rewrite (between_split text s e) by lia.
  - rewrite length_between by lia. lia.
  - now rewrite length_between by lia.
  - rewrite length_between by lia. lia.
Qed.

Lemma lstrip_app_solid a c x :
  isspace db c = false ->
  lstrip db (a ++ c :: x) = lstrip db a ++ c :: x.
Proof.
  intros Hc. induction a as [|y a IH]; simpl.
  - now rewrite Hc.
  - destruct (isspace db y); [exact IH|reflexivity].
Qed.

Lemma rstrip_app_solid y c b :
  isspace db c = false ->
  rstrip db (y ++ c :: b) = y ++ c :: rstrip db b.
Proof.
  intros Hc. unfold rstrip.
  rewrite rev_app_distr. simpl. rewrite <- app_assoc. simpl.
  rewrite lstrip_app_solid by assumption.
  rewrite rev_app_distr. simpl. rewrite rev_involutive, <- app_assoc.
  reflexivity.
Qed.

Lemma solid_at text i :
  i < length text -> space_at db text i = false ->
  exists c, nth_error text i = Some c /\ isspace db c = false.
Proof.
  intros Hi Hs. unfold space_at in Hs.
  destruct (nth_error text i) as [c|] eqn:E.
  - eauto.
  - apply nth_error_None in E. lia.
Qed.

(** Stripping leaves alone what stands between two characters that are not
    white space. *)
Lemma strip_solid a m b c m1 m2 d :
  m = c :: m1 -> m = m2 ++ [d] ->
  isspace db c = false -> isspace db d = false ->
  strip db (a ++ m ++ b) = lstrip db a ++ m ++ rstrip db b.
Proof.
  intros E1 E2 Hc Hd. unfold strip.
  assert (L : lstrip db (a ++ m ++ b) = lstrip db a ++ m ++ b).
  { rewrite E1. cbn [app]. now apply lstrip_app_solid. }
  rewrite L, E2.
  replace (lstrip db a ++ (m2 ++ [d]) ++ b)
    with ((lstrip db a ++ m2) ++ d :: b)
    by (now rewrite <- !app_assoc).
  rewrite rstrip_app_solid by assumption.
  now rewrite <- !app_assoc.
Qed.

(** The snippet of a span whose first and last characters are not white
    space. *)
Lemma snippet_shape text s e :
  s < e <= length text ->
  space_at db text s = false -> space_at db text (e - 1) = false ->
  snippet_of db text (s, e) =
    lstrip db (between text (s - 40) s) ++ between text s e
    ++ rstrip db (between text e (Nat.min (length text) (e + 40))).
Proof.
  intros H Hs He. unfold snippet_of. cbn [fst snd].
  destruct (context_window text s e) as [-> _]; [lia|].
  destruct (solid_at text s) as (c & Hc & Sc); [lia|assumption|].
  destruct (solid_at text (e - 1)) as (d & Hd & Sd); [lia|assumption|].
  apply strip_solid with (c := c) (d := d) (m1 := between text (S s) e)
                         (m2 := between text s (e - 1));
    try assumption.
  - rewrite (between_split text s (S s) e) by lia.
    now rewrite (between_one text s c Hc).
  - rewrite (between_split text s (e - 1) e) by lia. f_equal.
    replace e with (S (e - 1)) at 2 by lia. now apply between_one.
Qed.

(** X4: when the first and the last character of a match are not white
    space, its snippet is the matched text itself with what is left of the
    40 characters on each side once the outer white space is stripped; so
    the snippet holds the matched text. *)
Theorem snippet_holds_match text s e :
  s < e <= length text ->
  space_at db text s = false -> space_at db text (e - 1) = false ->
  exists before after,
    snippet_of db text (s, e) = before ++ between text s e ++ after /\
    before = lstrip db (between text (s - 40) s) /\
    after = rstrip db (between text e (Nat.min (length text) (e + 40))) /\
    length before <= 40 /\ length after <= 40.
Proof.
  intros H Hs He.
  exists (lstrip db (between text (s - 40) s)),
         (rstrip db (between text e (Nat.min (length text) (e + 40)))).
  split; [now apply snippet_shape|]. split; [reflexivity|].
  split; [reflexivity|].
  assert (L : forall l, length (lstrip db l) <= length l).
  { induction l as [|x l IH]; simpl; [lia|].
    destruct (isspace db x); simpl; lia. }
  destruct (context_window text s e) as (_ & Hb & _ & Ha); [lia|].
  split.
  - etransitivity; [apply L|]. rewrite Hb. lia.
  - unfold rstrip. rewrite length_rev.
    etransitivity; [apply L|]. rewrite length_rev, Ha. lia.
Qed.

End Windows.

Lemma context_window_witness :
  length (between (str "So I admit it") 3 10) = 10 - 3.
Proof.
  apply (context_window (str "So I admit it") 3 10). simpl. lia.
Defined.

Lemma snippet_holds_match_witness :
  exists before after,
    snippet_of excerpt_db (str "  So I admit it. ") (5, 12)
    = before ++ str "I admit" ++ after /\
    before = str "So " /\ after = str " it." /\
    length before <= 40 /\ length after <= 40.
Proof.
  apply (snippet_holds_match excerpt_db (str "  So I admit it. ") 5 12).
  - simpl. lia.
  - reflexivity.
  - reflexivity.
Defined.

(** * The categories of the result *)

Section Categories.

Variable db : unicode_db.

Lemma str_leb_total a : forall b, str_leb a b = false -> str_leb b a = true.
Proof.
  induction a as [|x a IH]; intros [|y b]; simpl; try discriminate; auto.
  intros H. apply orb_false_iff in H as [Hlt H].
  apply N.ltb_ge in Hlt. apply orb_true_iff.
  destruct (N.eqb_spec x y) as [->|Hne].
  - right. rewrite N.eqb_refl. simpl in *. now apply IH.
  - left. apply N.ltb_lt. lia.
Qed.

Lemma In_insert_sorted z x l :
  In z (insert_sorted x l) <-> z = x \/ In z l.
Proof.
  induction l as [|y l IH]; simpl.
  - intuition.
  - destruct (str_leb x y); simpl; rewrite ?IH; intuition.
Qed.

Lemma In_sorted z l : In z (sorted l) <-> In z l.
Proof.
  induction l as [|x l IH]; simpl; [tauto|].
  rewrite In_insert_sorted, IH. intuition.
Qed.

Lemma NoDup_sorted l : NoDup l -> NoDup (sorted l).
Proof.
  induction 1 as [|x l Hx Hl IH]; simpl; [constructor|].
  assert (Hx' : ~ In x (sorted l)) by now rewrite In_sorted.
  revert Hx' IH. generalize (sorted l) as m.
  induction m as [|y m IHm]; simpl; intros Hx' Hm.
  - repeat constructor. auto.
  - destruct (str_leb x y).
    + constructor; [simpl; tauto|assumption].
    + inversion Hm as [|y' m' Hy Hm']; subst.
      constructor.
      * rewrite In_insert_sorted. intuition.
      * apply IHm; tauto.
Qed.

Lemma Sorted_sorted l : Sorted (fun a b => str_leb a b = true) (sorted l).
Proof.
  induction l as [|x l IH]; simpl; [constructor|].
  revert IH. generalize (sorted l) as m.
  induction m as [|y m IHm]; simpl; intros Hm.
  - repeat constructor.
  - destruct (str_leb x y) eqn:E.
    + constructor; [assumption|]. now constructor.
    + inversion Hm as [|y' m' Hs Hh]; subst.
      constructor; [now apply IHm|].
      apply str_leb_total in E.
      destruct m as [|z m]; simpl.
      * now constructor.
      * destruct (str_leb x z); constructor; [assumption|].
        now inversion Hh.
Qed.

(** X7: the categories of the result are listed in ascending order of their
    names and none is listed twice. *)
Theorem result_categories_sorted (email : dict) :
  Sorted (fun a b => str_leb a b = true) (result_categories db email) /\
  NoDup (result_categories db email).
Proof.
  unfold result_categories. split.
  - apply Sorted_sorted.
  - apply NoDup_sorted, NoDup_nodup.
Qed.

Lemma hit_iff text rp :
  hit db text rp = true <->
  exists p s e, In p (patterns rp) /\ In (s, e) (finditer db p text).
Proof.
  unfold hit. split.
  - destruct (category_matches db rp text) as [|[s e] l] eqn:E;
      [discriminate|]. intros _.
    assert (H : In (s, e) (category_matches db rp text))
      by (rewrite E; now left).
    apply in_flat_map in H as (p & Hp & H). eauto.
  - intros (p & s & e & Hp & H).
    assert (H' : In (s, e) (category_matches db rp text))
      by (apply in_flat_map; eauto).
    now destruct (category_matches db rp text).
Qed.

(** [finditer] finds a match exactly when the pattern matches somewhere in
    the text. *)
Lemma finditer_finds p text :
  (exists s e, In (s, e) (finditer db p text)) <->
  (exists i j, i <= length text /\ matches db text p i j).
Proof.
  split.
  - intros (s & e & H). exists s, e. split.
    + apply scan_start_bound in H. lia.
    + now apply finditer_sound.
  - intros (i & j & Hi & H). apply match_at_complete in H as (e & H).
    destruct (finditer_covers db p text i Hi) as (s & e' & Hin & _);
      [congruence|eauto].
Qed.

Lemma listed_iff_matching (email : dict) (c : pystr) :
  In c (result_categories db email) <->
  exists rp p i j,
    In rp _PATTERNS /\ category rp = c /\ In p (patterns rp) /\
    i <= length (combined_text email) /\
    matches db (combined_text email) p i j.
Proof.
  unfold result_categories, set_of.
  rewrite In_sorted, nodup_In, categories_found_spec, in_map_iff.
  split.
  - intros (rp & Hc & Hin). apply filter_In in Hin as [Hrp Hh].
    apply hit_iff in Hh as (p & s & e & Hp & H).
    destruct (proj1 (finditer_finds p (combined_text email)))
      as (i & j & Hi & Hm); [eauto|].
    exists rp, p, i, j. auto.
  - intros (rp & p & i & j & Hrp & Hc & Hp & Hi & Hm).
    exists rp. split; [assumption|]. apply filter_In. split; [assumption|].
    apply hit_iff.
    destruct (proj2 (finditer_finds p (combined_text email))) as (s & e & H);
      eauto.
Qed.

(** X8: a category is listed in the result exactly when one of its patterns
    matches somewhere in the scanning buffer. *)
Theorem category_listed_iff (email : dict) (c : pystr) :
  let text := combined_text email in
  In c (result_categories db email) <->
  exists rp p i j,
    In rp _PATTERNS /\ category rp = c /\ In p (patterns rp) /\
    i <= length text /\ matches db text p i j.
Proof. exact (listed_iff_matching email c). Qed.

Lemma length_filter_le {A : Type} (f : A -> bool) (l : list A) :
  length (filter f l) <= length l.
Proof.
  induction l as [|x l IH]; simpl; [lia|]. destruct (f x); simpl; lia.
Qed.

(** X9: the score lies between the number of flags and nine times that
    number, the catalog having nine categories, and is at most the square of
    the number of flags. *)
Theorem risk_score_bounds (email : dict) :
  let r := analyze_email db email in
  (num_flags r <= risk_score r <= 9 * num_flags r)%Z /\
  (risk_score r <= num_flags r * num_flags r)%Z.
Proof.
  cbv zeta. unfold analyze_email. cbn [risk_score num_flags].
  pose proof (categories_le_flags db (combined_text email)) as Hk.
  set (a := scan_catalog db (combined_text email)) in *.
  assert (H9 : (Z.of_nat (length (set_of (categories_found a))) <= 9)%Z).
  { subst a. rewrite categories_found_spec.
    pose proof (length_set_of
                  (map category
                     (filter (hit db (combined_text email)) _PATTERNS))) as H.
    rewrite length_map in H.
    pose proof (length_filter_le (hit db (combined_text email)) _PATTERNS) as H'.
    change (length _PATTERNS) with 9 in H'. lia. }
  set (k := Z.of_nat (length (set_of (categories_found a)))) in *.
  assert (Hk0 : (0 <= k)%Z) by (subst k; lia).
  unfold or_one. destruct (Z.eqb_spec k 0); nia.
Qed.

Lemma join_nil sep l :
  (forall x, In x l -> x <> []) -> join sep l = [] -> l = [].
Proof.
  destruct l as [|x [|y l]]; simpl; intros H E; [reflexivity| |].
  - subst x. exfalso. apply (H []); auto.
  - apply app_eq_nil in E as [-> _]. exfalso. apply (H []); auto.
Qed.

Lemma category_names_not_empty rp : In rp _PATTERNS -> category rp <> [].
Proof.
  unfold _PATTERNS. intros H.
  repeat (destruct H as [<-|H]; [discriminate|]). destruct H.
Qed.

Lemma categories_found_nil text :
  categories_found (scan_catalog db text) = [] <->
  flag_count (scan_catalog db text) = 0%Z.
Proof.
  rewrite categories_found_spec, flag_count_spec. unfold total_matches.
  induction _PATTERNS as [|rp l IH]; simpl; [tauto|].
  rewrite length_app. unfold hit at 1.
  destruct (category_matches db rp text); simpl.
  - exact IH.
  - split; [discriminate|lia].
Qed.

(** X11: the snippet string is empty exactly when there is no flag, and so
    is the category string. *)
Theorem empty_strings_iff_no_flags (email : dict) :
  let r := analyze_email db email in
  (flagged_snippets r = [] <-> num_flags r = 0%Z) /\
  (risk_categories r = [] <-> num_flags r = 0%Z).
Proof.
  cbv zeta. unfold analyze_email.
  cbn [flagged_snippets risk_categories num_flags].
  set (text := combined_text email). split.
  - rewrite snippets_spec, flag_count_spec, <- length_expected_entries.
    split.
    + intros H. apply join_nil in H; [now rewrite H|].
      intros x Hx. unfold expected_entries in Hx.
      apply in_flat_map in Hx as (rp & _ & Hx).
      apply in_map_iff in Hx as (m & <- & _). discriminate.
    + intros H. destruct (expected_entries db text); [reflexivity|].
      simpl in H. lia.
  - rewrite <- categories_found_nil. split.
    + intros H. apply join_nil in H.
      * apply (f_equal (@length _)) in H. rewrite length_sorted in H.
        destruct (categories_found (scan_catalog db text)) as [|c l] eqn:E;
          [reflexivity|].
        assert (Hc : In c (set_of (c :: l))) by (apply nodup_In; now left).
        destruct (set_of (c :: l)); [destruct Hc|discriminate].
      * intros x Hx. apply In_sorted, nodup_In in Hx.
        rewrite categories_found_spec in Hx.
        apply in_map_iff in Hx as (rp & <- & Hrp).
        apply filter_In in Hrp as [Hrp _].
        now apply category_names_not_empty.
    + intros ->. reflexivity.
Qed.

Lemma length_shorten snippet : length (shorten snippet) <= 201.
Proof.
  unfold shorten, len.
  destruct (Z.gtb_spec (Z.of_nat (length snippet)) 200).
  - rewrite length_app, length_firstn.
    change (length [ellipsis]) with 1. lia.
  - lia.
Qed.

Lemma category_names_short rp : In rp _PATTERNS -> length (category rp) <= 25.
Proof.
  unfold _PATTERNS. intros H.
  repeat (destruct H as [<-|H]; [simpl; lia|]). destruct H.
Qed.

(** X6: every entry of the snippet list is a category name of the catalog in
    brackets, a space and a snippet of at most 201 characters: no entry is
    longer than 229 characters. *)
Theorem recorded_entries_bounded text x :
  In x (snippets (scan_catalog db text)) ->
  exists rp snippet,
    In rp _PATTERNS /\
    x = str "[" ++ category rp ++ str "] " ++ snippet /\
    length snippet <= 201 /\ length x <= 229.
Proof.
  rewrite snippets_spec. unfold expected_entries. intros H.
  apply in_flat_map in H as (rp & Hrp & H).
  apply in_map_iff in H as (m & <- & _).
  exists rp, (shorten (snippet_of db text m)).
  pose proof (length_shorten (snippet_of db text m)) as Hs.
  pose proof (category_names_short rp Hrp) as Hc.
  repeat split; [assumption|assumption|].
  unfold annotate. rewrite !length_app. simpl. lia.
Qed.

End Categories.

Lemma recorded_entries_bounded_witness :
  exists rp snippet,
    In rp _PATTERNS /\
    str "[admission_of_fault] I admit it"
    = str "[" ++ category rp ++ str "] " ++ snippet /\
    length snippet <= 201 /\
    length (str "[admission_of_fault] I admit it") <= 229.
Proof.
  apply (recorded_entries_bounded excerpt_db
           (combined_text (email_of "" "I admit it"))).
  vm_compute. tauto.
Defined.

(** * Letter case *)

Section CharMap.

Variable db : unicode_db.

(** A renaming of characters that no item of a pattern and no word boundary
    can tell from the identity. *)
Variable f : char -> char.
Hypothesis atom_match_f : forall a d, atom_match db a (f d) = atom_match db a d.
Hypothesis is_word_f : forall d, is_word db (f d) = is_word db d.

Lemma word_at_map text i : word_at db (map f text) i = word_at db text i.
Proof.
  unfold word_at. rewrite nth_error_map.
  destruct (nth_error text i); simpl; [apply is_word_f|reflexivity].
Qed.

Lemma at_boundary_map text i :
  at_boundary db (map f text) i = at_boundary db text i.
Proof.
  unfold at_boundary, word_before. rewrite word_at_map.
  destruct i; [reflexivity|]. now rewrite word_at_map.
Qed.

Lemma run_map a s : run db a (map f s) = run db a s.
Proof.
  induction s as [|c s IH]; simpl; [reflexivity|].
  now rewrite atom_match_f, IH.
Qed.

Lemma sre_match_map r text : forall i k,
  sre_match db r (map f text) i k = sre_match db r text i k.
Proof.
  induction r as [|a| |r1 IH1 r2 IH2|r1 IH1 r2 IH2|lo hi a]; intros i k; simpl.
  - reflexivity.
  - rewrite nth_error_map. destruct (nth_error text i); simpl; [|reflexivity].
    now rewrite atom_match_f.
  - now rewrite at_boundary_map.
  - rewrite IH1. apply sre_match_ext. intros j. apply IH2.
  - now rewrite IH1, IH2.
  - unfold count. now rewrite skipn_map, run_map.
Qed.

Lemma scan_map r text n : forall s lim,
  scan db r (map f text) n s lim = scan db r text n s lim.
Proof.
  induction n as [|n IH]; intros s lim; simpl; [reflexivity|].
  unfold match_at, match_advancing. rewrite !sre_match_map.
  destruct (s <? lim); [apply IH|].
  destruct (sre_match db r text s (fun j => Some j)) as [e|]; [|apply IH].
  destruct (e =? s); [|now rewrite IH].
  destruct (sre_match db r text s _) as [e'|]; now rewrite IH.
Qed.

Lemma finditer_map r text :
  finditer db r (map f text) = finditer db r text.
Proof. unfold finditer. now rewrite length_map, scan_map. Qed.

End CharMap.

Section Letters.

Variable db : unicode_db.

Lemma ascii_tolower_cases d :
  ascii_tolower d = d \/
  ((65 <= d <= 90)%N /\ ascii_tolower d = (d + 32)%N).
Proof.
  unfold ascii_tolower, ascii_isupper, in_range.
  destruct (N.leb_spec 65 d), (N.leb_spec d 90); simpl; auto.
Qed.

Ltac letters :=
  unfold tolower, toupper, isspace, isdecimal, isalnum, is_ascii,
    ascii_tolower, ascii_toupper, ascii_isspace, ascii_isdecimal, ascii_isalnum,
    ascii_isupper, ascii_islower, in_range;
  repeat match goal with
         | |- context [(?a <=? ?b)%N] => destruct (N.leb_spec a b); try lia
         | |- context [(?a <? ?b)%N] => destruct (N.ltb_spec a b); try lia
         end; simpl; try reflexivity; try lia.

Lemma tolower_ascii_tolower d : tolower db (ascii_tolower d) = tolower db d.
Proof.
  destruct (ascii_tolower_cases d) as [->|[Hd ->]]; [reflexivity|]. letters.
Qed.

Lemma upper_letter_iscased p : (65 <= p <= 90)%N -> iscased db p = true.
Proof.
  intros Hp. unfold iscased. apply orb_true_iff. left.
  apply negb_true_iff, N.eqb_neq. letters.
Qed.

Lemma lower_letter_iscased p : (97 <= p <= 122)%N -> iscased db p = true.
Proof.
  intros Hp. unfold iscased. apply orb_true_iff. right.
  apply negb_true_iff, N.eqb_neq. letters.
Qed.

Lemma atom_match_tolower a d :
  atom_match db a (ascii_tolower d) = atom_match db a d.
Proof.
  destruct a as [p| |]; simpl.
  - unfold literal_ignore. rewrite tolower_ascii_tolower.
    destruct (iscased db p) eqn:Hp; [reflexivity|].
    destruct (ascii_tolower_cases d) as [->|[Hd ->]]; [reflexivity|].
    destruct (N.eqb_spec (d + 32) p) as [E1|_], (N.eqb_spec d p) as [E2|_];
      try reflexivity; exfalso; subst p.
    + rewrite lower_letter_iscased in Hp by lia. discriminate.
    + rewrite upper_letter_iscased in Hp by lia. discriminate.
  - destruct (ascii_tolower_cases d) as [->|[Hd ->]]; [reflexivity|]. letters.
  - destruct (ascii_tolower_cases d) as [->|[Hd ->]]; [reflexivity|]. letters.
Qed.

Lemma is_word_tolower d : is_word db (ascii_tolower d) = is_word db d.
Proof.
  destruct (ascii_tolower_cases d) as [->|[Hd ->]]; [reflexivity|].
  unfold is_word.
  replace (d + 32 =? 95)%N with false by (symmetry; apply N.eqb_neq; lia).
  replace (d =? 95)%N with false by (symmetry; apply N.eqb_neq; lia).
  f_equal. letters.
Qed.

(** The matches of a pattern depend on the text only up to the case of its
    ASCII letters. *)
Lemma finditer_same_letters r t1 t2 :
  same_letters t1 t2 -> finditer db r t1 = finditer db r t2.
Proof.
  intros H.
  rewrite <- (finditer_map db ascii_tolower atom_match_tolower
                is_word_tolower r t1).
  rewrite <- (finditer_map db ascii_tolower atom_match_tolower
                is_word_tolower r t2).
  unfold same_letters in H. now rewrite H.
Qed.

Lemma scan_catalog_same_letters t1 t2 :
  same_letters t1 t2 ->
  categories_found (scan_catalog db t1) = categories_found (scan_catalog db t2)
  /\ flag_count (scan_catalog db t1) = flag_count (scan_catalog db t2).
Proof.
  intros H.
  assert (M : forall rp, category_matches db rp t1 = category_matches db rp t2).
  { intros rp. unfold category_matches. apply flat_map_ext. intros r.
    now apply finditer_same_letters. }
  rewrite !categories_found_spec, !flag_count_spec. split.
  - f_equal. apply filter_ext. intros rp. unfold hit. now rewrite M.
  - unfold total_matches. do 2 f_equal. apply flat_map_ext. exact M.
Qed.

(** X10: two records whose subjects and whose bodies differ only in the case
    of ASCII letters get the same matches from every pattern, hence the same
    categories, the same number of flags and the same score. *)
Theorem letter_case_ignored (e1 e2 : dict) :
  same_letters (field_text e1 "subject") (field_text e2 "subject") ->
  same_letters (field_text e1 "body") (field_text e2 "body") ->
  (forall r, finditer db r (combined_text e1) = finditer db r (combined_text e2))
  /\ risk_categories (analyze_email db e1) = risk_categories (analyze_email db e2)
  /\ num_flags (analyze_email db e1) = num_flags (analyze_email db e2)
  /\ risk_score (analyze_email db e1) = risk_score (analyze_email db e2).
Proof.
  intros Hs Hb.
  assert (H : same_letters (combined_text e1) (combined_text e2)).
  { unfold same_letters in *. rewrite !combined_text_fields, !map_app.
    f_equal; [exact Hs|]. f_equal. exact Hb. }
  split; [intros r; now apply finditer_same_letters|].
  unfold analyze_email. cbn [risk_categories num_flags risk_score].
  destruct (scan_catalog_same_letters _ _ H) as [-> ->]. auto.
Qed.

End Letters.

Lemma letter_case_ignored_witness :
  num_flags (analyze_email excerpt_db (email_of "OFFER" "i Admit IT")) =
  num_flags (analyze_email excerpt_db (email_of "Offer" "I admit it")).
Proof.
  apply (letter_case_ignored excerpt_db (email_of "OFFER" "i Admit IT")
           (email_of "Offer" "I admit it")); reflexivity.
Defined.

(** * Upper case *)

Section UpperCase.

Variable db : unicode_db.

Lemma tolower_toupper_ascii d :
  ascii_tolower (ascii_toupper d) = ascii_tolower d.
Proof.
  destruct (ascii_toupper_cases d) as [->|[Hd ->]]; [reflexivity|].
  unfold ascii_tolower, ascii_isupper, in_range.
  repeat match goal with
         | |- context [(?a <=? ?b)%N] => destruct (N.leb_spec a b); try lia
         end; simpl; lia.
Qed.

(** ASCII text and its upper case differ only in the case of letters. *)
Lemma upper_ascii_same_letters s :
  forallb is_ascii s = true -> same_letters (upper db s) s.
Proof.
  intros H. unfold same_letters. rewrite (upper_ascii db s H), map_map.
  apply map_ext. exact tolower_toupper_ascii.
Qed.

(** C8, amended: on a record whose subject and whose body differ from their
    upper case only in the case of ASCII letters, as every ASCII text does
    and every text whose other characters [str.upper] leaves alone, putting
    the two fields in upper case changes neither the categories of the result
    nor its number of flags nor its score; "We are responsible" and
    "WE ARE RESPONSIBLE" have the same categories. *)
Theorem upper_case_insensitive (email : dict) :
  same_letters (upper db (field_text email "subject"))
               (field_text email "subject") ->
  same_letters (upper db (field_text email "body"))
               (field_text email "body") ->
  (result_categories db (upper_fields db email) = result_categories db email /\
   risk_categories (analyze_email db (upper_fields db email)) =
     risk_categories (analyze_email db email) /\
   num_flags (analyze_email db (upper_fields db email)) =
     num_flags (analyze_email db email) /\
   risk_score (analyze_email db (upper_fields db email)) =
     risk_score (analyze_email db email)) /\
  risk_categories (analyze_email db (email_of "" "We are responsible")) =
    risk_categories (analyze_email db (email_of "" "WE ARE RESPONSIBLE")).
Proof.
  intros Hs Hb. split; [|reflexivity].
  assert (H : same_letters (combined_text (upper_fields db email))
                           (combined_text email)).
  { unfold same_letters in *. rewrite !combined_text_fields.
    rewrite !field_text_upper by auto. rewrite !map_app.
    f_equal; [exact Hs|]. f_equal. exact Hb. }
  unfold result_categories, analyze_email.
  cbn [risk_categories num_flags risk_score].
  destruct (scan_catalog_same_letters db _ _ H) as [-> ->].
  repeat split.
Qed.

End UpperCase.

Lemma upper_case_insensitive_witness :
  result_categories excerpt_db (upper_fields excerpt_db curly) =
  result_categories excerpt_db curly.
Proof.
  apply (upper_case_insensitive excerpt_db curly); reflexivity.
Defined.

(** The upper case of [curly] keeps the apostrophe and the dash. *)
Example curly_upper :
  field_text (upper_fields excerpt_db curly) "body" =
  str "IT" ++ [8217%N] ++ str "S TRUE " ++ [8211%N] ++ str " WE ARE RESPONSIBLE".
Proof. reflexivity. Qed.

(** * What is certain to be flagged *)

Section Detection.

Variable db : unicode_db.

Lemma occurs_at_map (g : char -> char) w text i :
  occurs_at w text i -> occurs_at (map g w) (map g text) i.
Proof.
  unfold occurs_at. intros H.
  now rewrite length_map, skipn_map, firstn_map, H.
Qed.

Lemma literal_accepts_lower c :
  atom_match db (LITERAL c) (ascii_tolower c) = true.
Proof. rewrite atom_match_tolower. apply literal_ignore_refl. Qed.

(** A phrase that stands in the lower-cased text is matched by its literal
    characters; [tail] goes on from there. *)
Lemma literals_then_matches w tail : forall text i k,
  occurs_at (map ascii_tolower w) text i ->
  matches db text tail (i + length w) k ->
  matches db text (literals_then w tail) i k.
Proof.
  unfold literals_then.
  induction w as [|c w IH]; intros text i k Ho Ht.
  - simpl in *. now rewrite Nat.add_0_r in Ht.
  - cbn [map] in Ho. apply occurs_at_cons in Ho as [Hc Ho].
    cbn [map app].
    destruct (map (fun c => ATOM (LITERAL c)) w ++ [tail]) as [|x l] eqn:E.
    { apply app_eq_nil in E as [_ E]. discriminate. }
    change (seq_of (ATOM (LITERAL c) :: x :: l))
      with (SEQ (ATOM (LITERAL c)) (seq_of (x :: l))).
    apply M_seq with (j := S i).
    + apply M_atom with (d := ascii_tolower c);
        [assumption|apply literal_accepts_lower].
    + apply IH; [assumption|].
      now replace (S i + length w) with (i + length (c :: w)) by (simpl; lia).
Qed.

Lemma literals_matches w : forall text i,
  occurs_at (map ascii_tolower w) text i ->
  matches db text (seq_of (map (fun c => ATOM (LITERAL c)) w)) i (i + length w).
Proof.
  induction w as [|c w IH]; intros text i Ho.
  - simpl. rewrite Nat.add_0_r. constructor.
  - cbn [map] in Ho. apply occurs_at_cons in Ho as [Hc Ho].
    assert (Hatom : matches db text (ATOM (LITERAL c)) i (S i)).
    { apply M_atom with (d := ascii_tolower c);
        [assumption|apply literal_accepts_lower]. }
    destruct w as [|c' w].
    + simpl. now rewrite Nat.add_1_r.
    + change (seq_of (map _ (c :: c' :: w)))
        with (SEQ (ATOM (LITERAL c))
                  (seq_of (map (fun c => ATOM (LITERAL c)) (c' :: w)))).
      apply M_seq with (j := S i); [assumption|].
      replace (i + length (c :: c' :: w)) with (S i + length (c' :: w))
        by (simpl; lia).
      now apply IH.
Qed.

Lemma alternative_matches a b text i j :
  alternative a b -> matches db text a i j -> matches db text b i j.
Proof.
  intros Ha Hm. induction b; simpl in Ha;
    try (destruct Ha as [->|[]]; assumption).
  destruct Ha as [->|[Ha|Ha]]; [assumption| |].
  - apply M_left. auto.
  - apply M_right. auto.
Qed.

(** Stretches of accepted characters are matched by a repeat that allows
    their length. *)
Lemma repeat_matches lo hi a w text i :
  occurs_at w text i ->
  (forall d, In d w -> atom_match db a d = true) ->
  lo <= length w -> (forall h, hi = Some h -> length w <= h) ->
  matches db text (MAX_REPEAT lo hi a) i (i + length w).
Proof.
  intros Ho Ha Hlo Hhi. constructor; [assumption|assumption|].
  intros p Hp. rewrite (occurs_at_nth w text i p Ho Hp).
  destruct (nth_error w p) as [d|] eqn:E.
  - exists d. split; [reflexivity|]. apply Ha. eapply nth_error_In, E.
  - apply nth_error_None in E. lia.
Qed.

(** A pattern that matches in the lower-cased text has its category in the
    result. *)
Lemma flagged_when_matching (email : dict) rp p i j :
  In rp _PATTERNS -> In p (patterns rp) ->
  i <= length (combined_text email) ->
  matches db (map ascii_tolower (combined_text email)) p i j ->
  In (category rp) (result_categories db email).
Proof.
  intros Hrp Hp Hi Hm.
  apply match_at_complete in Hm as (e & Hm).
  destruct (finditer_covers db p (map ascii_tolower (combined_text email)) i)
    as (s & e' & Hin & _); [now rewrite length_map|congruence|].
  rewrite (finditer_map db ascii_tolower (atom_match_tolower db)
             (is_word_tolower db)) in Hin.
  apply listed_iff_matching. exists rp, p, s, e'.
  repeat split; try assumption.
  - apply scan_start_bound in Hin. lia.
  - now apply finditer_sound.
Qed.

Lemma same_letters_length v w : same_letters v w -> length v = length w.
Proof.
  unfold same_letters. intros H. apply (f_equal (@length _)) in H.
  now rewrite !length_map in H.
Qed.

(** The phrase, in the lower-cased text, with its two boundaries. *)
Lemma stands_at_lower w text i :
  stands_at db w text i ->
  occurs_at (map ascii_tolower w) (map ascii_tolower text) i /\
  at_boundary db (map ascii_tolower text) i = true /\
  at_boundary db (map ascii_tolower text) (i + length w) = true.
Proof.
  intros (v & Hv & Ho & Hb & He).
  rewrite !(at_boundary_map db ascii_tolower (is_word_tolower db)).
  rewrite <- (same_letters_length v w Hv). unfold same_letters in Hv.
  rewrite <- Hv. auto using occurs_at_map.
Qed.

Lemma bounded_phrase_matches (w : string) b text i :
  alternative (lit w) b ->
  stands_at db (str w) text i ->
  matches db (map ascii_tolower text) (bounded b) i (i + length (str w)).
Proof.
  intros Ha Hs. apply stands_at_lower in Hs as (Ho & Hb & He).
  apply bounded_intro; [assumption|assumption|].
  apply alternative_matches with (a := lit w); [assumption|].
  now apply literals_matches.
Qed.

Lemma flat_phrase_matches (w : string) text i :
  stands_at db (str w) text i ->
  matches db (map ascii_tolower text)
    (SEQ AT_BOUNDARY (literals_then (str w) AT_BOUNDARY))
    i (i + length (str w)).
Proof.
  intros Hs. apply stands_at_lower in Hs as (Ho & Hb & He).
  apply M_seq with (j := i); [now constructor|].
  apply literals_then_matches; [assumption|now constructor].
Qed.

Lemma stands_at_inside w text i :
  w <> [] -> stands_at db w text i -> i <= length text.
Proof.
  intros Hw (v & Hv & Ho & _).
  destruct v as [|c v].
  - apply same_letters_length in Hv. destruct w; [contradiction|discriminate].
  - apply occurs_at_inside in Ho. lia.
Qed.

Ltac pick_alternative :=
  first [ left; reflexivity
        | right; first [ left; pick_alternative | right; pick_alternative ] ].

Ltac flagged_by email w i rp p :=
  apply (flagged_when_matching email rp p i (i + length (str w)));
  [ unfold _PATTERNS; simpl; tauto
  | simpl; tauto
  | apply (stands_at_inside (str w)); [discriminate|assumption]
  | first [ apply (bounded_phrase_matches w); [pick_alternative|assumption]
          | apply (flat_phrase_matches w); assumption ] ].

Ltac try_patterns email w i rp ps :=
  lazymatch ps with
  | ?p :: ?ps' =>
      first [ solve [flagged_by email w i rp p]
            | try_patterns email w i rp ps' ]
  end.

Ltac same_name rp :=
  lazymatch goal with
  | |- In ?c _ =>
      let a := eval vm_compute in c in
      let b := eval vm_compute in (category rp) in
      constr_eq a b
  end.

Ltac try_categories email w i l :=
  lazymatch l with
  | ?rp :: ?l' =>
      first [ same_name rp;
              let ps := eval cbn in (patterns rp) in
              try_patterns email w i rp ps
            | try_categories email w i l' ]
  end.

(** X13: each plain phrase of the catalog, in whatever case its letters are
    written, has its category in the result as soon as it stands somewhere in
    the scanning buffer between two word boundaries. *)
Theorem phrase_flagged (email : dict) (c w : string) (i : nat) :
  In (c, w) literal_phrases ->
  stands_at db (str w) (combined_text email) i ->
  In (str c) (result_categories db email).
Proof.
  intros Hin Hs. unfold literal_phrases in Hin.
  repeat (destruct Hin as [[= <- <-]|Hin];
          [ lazymatch goal with
            | H : stands_at db (str ?w') _ _ |- _ =>
                let l := eval unfold _PATTERNS in _PATTERNS in
                try_categories email w' i l
            end |]).
  destruct Hin.
Qed.

Lemma ssn_number_shape :
  ssn_number =
  literals_then (str "SSN")
    (SEQ (MAX_REPEAT 0 None CATEGORY_SPACE)
       (SEQ (MAX_REPEAT 3 (Some 3) CATEGORY_DIGIT)
          (SEQ (ATOM (LITERAL 45%N))
             (SEQ (MAX_REPEAT 2 (Some 2) CATEGORY_DIGIT)
                (SEQ (ATOM (LITERAL 45%N))
                   (MAX_REPEAT 4 (Some 4) CATEGORY_DIGIT)))))).
Proof. reflexivity. Qed.

Lemma digit_accepted d :
  ascii_isdecimal d = true ->
  atom_match db CATEGORY_DIGIT (ascii_tolower d) = true.
Proof.
  intros H. rewrite atom_match_tolower. simpl. unfold isdecimal.
  replace (is_ascii d) with true; [assumption|].
  unfold ascii_isdecimal, in_range in H. apply andb_true_iff in H as [_ H].
  apply N.leb_le in H. symmetry. apply N.ltb_lt. lia.
Qed.

Lemma digits_accepted l :
  forallb ascii_isdecimal l = true ->
  forall d, In d (map ascii_tolower l) ->
  atom_match db CATEGORY_DIGIT d = true.
Proof.
  intros H d Hd. apply in_map_iff in Hd as (x & <- & Hx).
  apply digit_accepted. rewrite forallb_forall in H. auto.
Qed.

Lemma spaces_accepted k d :
  In d (map ascii_tolower (repeat 32%N k)) ->
  atom_match db CATEGORY_SPACE d = true.
Proof.
  intros Hd. apply in_map_iff in Hd as (x & <- & Hx).
  apply repeat_spec in Hx as ->. reflexivity.
Qed.

Lemma hyphen_matches text i :
  occurs_at (map ascii_tolower (str "-")) text i ->
  matches db text (ATOM (LITERAL 45%N)) i (i + 1).
Proof.
  intros H. apply occurs_at_cons in H as [H _].
  rewrite Nat.add_1_r. now apply M_atom with (d := 45%N).
Qed.

(** X12: the letters SSN in whatever case, any number of spaces, three
    digits, a hyphen, two digits, a hyphen and four digits, anywhere in the
    scanning buffer, put sensitive_data among the categories of the
    result. *)
Theorem ssn_flagged (email : dict) (i k : nat) (label d3 d2 d4 : pystr) :
  same_letters label (str "SSN") ->
  length d3 = 3 -> length d2 = 2 -> length d4 = 4 ->
  forallb ascii_isdecimal (d3 ++ d2 ++ d4) = true ->
  occurs_at (label ++ repeat 32%N k ++ d3 ++ str "-" ++ d2 ++ str "-" ++ d4)
            (combined_text email) i ->
  In (str "sensitive_data") (result_categories db email).
Proof.
  intros Hl L3 L2 L4 Hd Ho.
  rewrite !forallb_app in Hd.
  apply andb_true_iff in Hd as [D3 Hd]. apply andb_true_iff in Hd as [D2 D4].
  assert (Hi : i <= length (combined_text email)).
  { destruct label as [|c label].
    - apply same_letters_length in Hl. discriminate.
    - apply occurs_at_inside in Ho. lia. }
  apply (occurs_at_map ascii_tolower) in Ho.
  rewrite !map_app in Ho.
  set (T := map ascii_tolower (combined_text email)) in *.
  apply occurs_at_app in Ho as [O0 Ho].
  apply occurs_at_app in Ho as [O1 Ho].
  apply occurs_at_app in Ho as [O2 Ho].
  apply occurs_at_app in Ho as [O3 Ho].
  apply occurs_at_app in Ho as [O4 Ho].
  apply occurs_at_app in Ho as [O5 O6].
  unfold same_letters in Hl. rewrite Hl in *.
  apply (flagged_when_matching email sensitive_data ssn_number i
           (i + length (map ascii_tolower (str "SSN"))
            + length (map ascii_tolower (repeat 32%N k))
            + length (map ascii_tolower d3) + 1
            + length (map ascii_tolower d2) + 1
            + length (map ascii_tolower d4)));
    [apply named_categories_in_catalog; simpl; tauto|simpl; tauto|assumption|].
  fold T. rewrite ssn_number_shape.
  apply literals_then_matches; [exact O0|].
  change (length (str "SSN")) with (length (map ascii_tolower (str "SSN"))).
  eapply M_seq.
  { apply repeat_matches; [exact O1|apply spaces_accepted|lia|discriminate]. }
  eapply M_seq.
  { apply repeat_matches; [exact O2|now apply digits_accepted| |].
    - rewrite length_map. lia.
    - intros h [= <-]. rewrite length_map. lia. }
  eapply M_seq.
  { apply hyphen_matches. exact O3. }
  eapply M_seq.
  { apply repeat_matches; [exact O4|now apply digits_accepted| |].
    - rewrite length_map. lia.
    - intros h [= <-]. rewrite length_map. lia. }
  eapply M_seq.
  { apply hyphen_matches. exact O5. }
  apply repeat_matches; [exact O6|now apply digits_accepted| |].
  - rewrite length_map. lia.
  - intros h [= <-]. rewrite length_map. lia.
Qed.

End Detection.

Lemma phrase_flagged_witness :
  In (str "threat_of_action")
     (result_categories excerpt_db (email_of "" "We'll Take You To Court!")).
Proof.
  apply (phrase_flagged excerpt_db (email_of "" "We'll Take You To Court!")
           "threat_of_action" "we'll take you to court" 1).
  - unfold literal_phrases. simpl. auto 20.
  - exists (str "We'll Take You To Court"). repeat split.
Defined.

Lemma ssn_flagged_witness :
  In (str "sensitive_data")
     (result_categories excerpt_db (email_of "id" "my ssn  123-45-6789.")).
Proof.
  apply (ssn_flagged excerpt_db (email_of "id" "my ssn  123-45-6789.") 6 2
           (str "ssn") (str "123") (str "45") (str "6789"));
    reflexivity.
Defined.

(** * Phrases with gaps *)

Section Gaps.

Variable db : unicode_db.

Lemma we_are_responsible_shape :
  we_are_responsible =
  SEQ AT_BOUNDARY
    (literals_then (str "we")
       (SEQ (MAX_REPEAT 1 None CATEGORY_SPACE)
          (SEQ (BRANCH (lit "are") (BRANCH (lit "re") (lit "were")))
             (SEQ (MAX_REPEAT 1 None CATEGORY_SPACE)
                (literals_then (str "responsible") AT_BOUNDARY))))).
Proof. reflexivity. Qed.

Lemma gap_accepted g :
  forallb (isspace db) g = true ->
  forall d, In d (map ascii_tolower g) ->
  atom_match db CATEGORY_SPACE d = true.
Proof.
  intros H d Hd. apply in_map_iff in Hd as (x & <- & Hx).
  rewrite atom_match_tolower. simpl. rewrite forallb_forall in H. auto.
Qed.

Lemma gap_matches g text i :
  g <> [] -> forallb (isspace db) g = true ->
  occurs_at (map ascii_tolower g) text i ->
  matches db text (MAX_REPEAT 1 None CATEGORY_SPACE) i
    (i + length (map ascii_tolower g)).
Proof.
  intros Hg Hs Ho.
  apply repeat_matches; [assumption|now apply gap_accepted| |discriminate].
  destruct g; [contradiction|simpl; lia].
Qed.

(** X14: "we", a gap of white space, "are", "re" or "were", another gap and
    "responsible", the letters in whatever case, standing between two word
    boundaries anywhere in the scanning buffer, put admission_of_fault among
    the categories of the result; the newline that joins subject and body
    is such a gap. *)
Theorem admission_flagged (email : dict) (i : nat)
        (we g1 verb g2 resp : pystr) :
  same_letters we (str "we") ->
  same_letters verb (str "are") \/ same_letters verb (str "re")
    \/ same_letters verb (str "were") ->
  same_letters resp (str "responsible") ->
  g1 <> [] -> g2 <> [] ->
  forallb (isspace db) g1 = true -> forallb (isspace db) g2 = true ->
  whole_at db (we ++ g1 ++ verb ++ g2 ++ resp) (combined_text email) i ->
  In (str "admission_of_fault") (result_categories db email).
Proof.
  intros Hwe Hverb Hresp N1 N2 S1 S2 (Ho & Hb & He).
  assert (Hi : i <= length (combined_text email)).
  { destruct we as [|c we].
    - apply same_letters_length in Hwe. discriminate.
    - apply occurs_at_inside in Ho. lia. }
  rewrite <- (at_boundary_map db ascii_tolower (is_word_tolower db)) in Hb, He.
  apply (occurs_at_map ascii_tolower) in Ho.
  rewrite <- (length_map ascii_tolower) in He.
  rewrite !map_app in Ho, He.
  set (T := map ascii_tolower (combined_text email)) in *.
  apply occurs_at_app in Ho as [O0 Ho].
  apply occurs_at_app in Ho as [O1 Ho].
  apply occurs_at_app in Ho as [O2 Ho].
  apply occurs_at_app in Ho as [O3 O4].
  rewrite !length_app, !Nat.add_assoc in He.
  unfold same_letters in Hwe, Hresp. rewrite Hwe, Hresp in *.
  apply (flagged_when_matching db email admission_of_fault we_are_responsible
           i (i + length (map ascii_tolower (str "we"))
              + length (map ascii_tolower g1)
              + length (map ascii_tolower verb)
              + length (map ascii_tolower g2)
              + length (map ascii_tolower (str "responsible"))));
    [apply named_categories_in_catalog; simpl; tauto|simpl; tauto|assumption|].
  fold T. rewrite we_are_responsible_shape.
  apply M_seq with (j := i); [now constructor|].
  apply literals_then_matches; [exact O0|].
  change (length (str "we")) with (length (map ascii_tolower (str "we"))).
  eapply M_seq; [exact (gap_matches g1 T _ N1 S1 O1)|].
  eapply M_seq.
  { instantiate (1 := i + length (map ascii_tolower (str "we"))
                      + length (map ascii_tolower g1)
                      + length (map ascii_tolower verb)).
    unfold same_letters in Hverb.
    destruct Hverb as [Hv|[Hv|Hv]]; rewrite Hv in *.
    - apply M_left. now apply (literals_matches db (str "are")).
    - apply M_right, M_left. now apply (literals_matches db (str "re")).
    - apply M_right, M_right. now apply (literals_matches db (str "were")). }
  eapply M_seq; [exact (gap_matches g2 T _ N2 S2 O3)|].
  apply literals_then_matches; [exact O4|].
  change (length (str "responsible"))
    with (length (map ascii_tolower (str "responsible"))).
  now constructor.
Qed.

End Gaps.

Lemma admission_flagged_witness :
  In (str "admission_of_fault")
     (result_categories excerpt_db (email_of "So WE" "were  responsible.")).
Proof.
  apply (admission_flagged excerpt_db (email_of "So WE" "were  responsible.") 3
           (str "WE") [10%N] (str "were") (str "  ") (str "responsible"));
    try reflexivity; try discriminate.
  - right. right. reflexivity.
  - repeat split.
Defined.
